(** * A fixed-capacity object pool: [MemoryPoolBase] of memory_pool.cpp

    The pool owns one block of [max_entries_ * entry_size_] bytes and keeps
    its free entries on an intrusive singly linked list: the first
    [uint_t] of a free entry holds the index of the next free entry.

    The embedding follows src/memory_pool.cpp function by function.
    - Addresses are integers ([Z]); [nullptr] is address [0].
    - The heap is a byte-addressed store; a [uint_t] is read and written
      as [UINT_SIZE] consecutive bytes, least significant byte first.
    - [uint_t] arithmetic wraps modulo [256 ^ UINT_SIZE] (the arithmetic of
      an unsigned type at least as wide as [unsigned int]).
    - The header memory_pool.hpp is not part of the sources at hand, so the
      width of [uint_t] and the platform call [posix_memalign] are
      parameters of the development. *)

From Stdlib Require Import ZArith List Bool Lia.
Import ListNotations.
Local Open Scope Z_scope.

(** ** Definitions *)

Definition nullptr : Z := 0.

(** Line 11. *)
Definition MIN_BLOCK_ALIGN : Z := 64.

(** Lines 61-64: [(uintptr_t)ptr & (align - 1)) == 0]. *)
Definition is_aligned (ptr align : Z) : bool :=
  Z.land ptr (align - 1) =? 0.

(** The heap: one byte per address. *)
Definition heap : Type := Z -> Z.

(** A single byte written at address [a]. *)
Definition poke (h : heap) (a b : Z) : heap :=
  fun x => if x =? a then b else h x.

(** [k] bytes of [v] written at [a], least significant first. *)
Fixpoint store_le (k : nat) (h : heap) (a v : Z) : heap :=
  match k with
  | O => h
  | S k' => store_le k' (poke h a (v mod 256)) (a + 1) (v / 256)
  end.

(** The [k] bytes at [a] read back as one number. *)
Fixpoint load_le (k : nat) (h : heap) (a : Z) : Z :=
  match k with
  | O => 0
  | S k' => h a + 256 * load_le k' h (a + 1)
  end.

(** The object: the five data members in the order of the constructor's
    initialiser list (lines 68-72). *)
Record MemoryPoolBase : Type := mkPool {
  max_entries_ : Z;
  entry_size_ : Z;
  num_free_entries_ : Z;
  pool_mem_ : Z;
  next_free_ : Z
}.

(** What a member function acts on: the object and the heap. *)
Record machine : Type := mkMachine {
  self : MemoryPoolBase;
  mem : heap
}.

Record MemoryPoolStats : Type := mkStats {
  block_count : Z;
  allocation_count : Z
}.

(** The pointers the caller holds: a non-null result of [allocate] joins
    them, a null result does not. *)
Definition hold (ptr : Z) (live : list Z) : list Z :=
  if ptr =? nullptr then live else ptr :: live.

(** The two helpers on 32-bit allocation masks (lines 34-58), where bit [i]
    set means slot [i] is in use.  They sit in a module of their own
    because the mask helper [allocation_count] shares its name with the
    field of [MemoryPoolStats]. *)
Module Mask.

Definition uint32 (z : Z) : Z := z mod 2 ^ 32.

(** The index of the lowest set bit of [m] among the bits [i], [i + 1],
    ... , looking at no more than [fuel] of them. *)
Fixpoint lowest_set (fuel : nat) (i : Z) (m : Z) : Z :=
  match fuel with
  | O => i
  | S fuel' => if Z.testbit m i then i else lowest_set fuel' (i + 1) m
  end.

(** [__builtin_ctz] on a 32-bit word: the number of trailing zeros, with
    no defined result on [0]. *)
Definition ctz (m : Z) : option Z :=
  if m =? 0 then None else Some (lowest_set 32 0 m).

(** Lines 35-47: [m = ~n & (n + 1)], then the trailing zeros of [m]. *)
Definition find_slot (n : Z) : option Z :=
  let m := Z.land (uint32 (Z.lnot n)) (uint32 (n + 1)) in
  ctz m.

(** The number of set bits among the [k] bits of [n] from bit [i] on. *)
Fixpoint count_set (k : nat) (i : Z) (n : Z) : Z :=
  match k with
  | O => 0
  | S k' => Z.b2z (Z.testbit n i) + count_set k' (i + 1) n
  end.

(** Lines 51-58: [__builtin_popcount] on a 32-bit word. *)
Definition allocation_count (n : Z) : Z := count_set 32 0 n.

End Mask.

(** Two behaviours of the platform call, and a heap, for worked instances:
    a call that succeeds with the block at address 64, a call that fails
    with ENOMEM, and the heap of zero bytes. *)
Definition memalign_at_64 : Z -> Z -> Z * Z := fun _ _ => (0, 64).
Definition memalign_enomem : Z -> Z -> Z * Z := fun _ _ => (12, 0).
Definition zero_heap : heap := fun _ => 0.

Section MemoryPool.

(** [sizeof(uint_t)], from the missing header. *)
Variable UINT_SIZE : nat.

(** The platform primitive of line 20: alignment and size in, the result
    code and the pointer it stored out. *)
Variable posix_memalign : Z -> Z -> Z * Z.

Definition UINT_MODULUS : Z := 256 ^ Z.of_nat UINT_SIZE.

(** Conversion to [uint_t]. *)
Definition uint (z : Z) : Z := z mod UINT_MODULUS.

(** The values a [uint_t] can take. *)
Definition is_uint (z : Z) : Prop := 0 <= z < UINT_MODULUS.

(** [*reinterpret_cast<uint_t *>(ptr)] as an rvalue and as an lvalue. *)
Definition load_uint (h : heap) (ptr : Z) : Z := load_le UINT_SIZE h ptr.
Definition store_uint (h : heap) (ptr v : Z) : heap := store_le UINT_SIZE h ptr v.

(** Lines 13-23 (the POSIX branch). *)
Definition malloc_block (block_size alignment : Z) : Z :=
  let (result, ptr) := posix_memalign alignment block_size in
  if result =? 0 then ptr else nullptr.

(** Lines 133-136. *)
Definition element_at (p : MemoryPoolBase) (index : Z) : Z :=
  pool_mem_ p + uint (index * entry_size_ p).

(** Lines 143-146: a pointer difference divided with truncation, returned
    as [uint_t]. *)
Definition index_of (p : MemoryPoolBase) (ptr : Z) : Z :=
  uint (Z.quot (ptr - pool_mem_ p) (entry_size_ p)).

(** Lines 75-79: the loop [for (i = 0; i < max_entries_; ++i)], started at
    [i]; [fuel] bounds the number of iterations. *)
Fixpoint init_free_list (fuel : nat) (p : MemoryPoolBase) (i : Z) (h : heap) : heap :=
  match fuel with
  | O => h
  | S fuel' =>
      if i <? max_entries_ p
      then init_free_list fuel' p (uint (i + 1))
             (store_uint h (element_at p i) (uint (i + 1)))
      else h
  end.

(** Lines 67-80: the constructor, run on heap [h]. *)
Definition MemoryPoolBase_new (entry_size max_entries : Z) (h : heap) : machine :=
  let block := malloc_block (uint (max_entries * entry_size)) MIN_BLOCK_ALIGN in
  let p := {| max_entries_ := max_entries;
              entry_size_ := entry_size;
              num_free_entries_ := max_entries;
              pool_mem_ := block;
              next_free_ := block |} in
  {| self := p; mem := init_free_list (Z.to_nat max_entries) p 0 h |}.

(** Line 84: the condition the destructor asserts. *)
Definition destructor_assert (p : MemoryPoolBase) : bool :=
  num_free_entries_ p =? max_entries_ p.

(** Lines 88-94. *)
Definition get_stats (p : MemoryPoolBase) : MemoryPoolStats :=
  {| block_count := 1;
     allocation_count := uint (max_entries_ p - num_free_entries_ p) |}.

(** Lines 96-118: the pointer returned and the machine afterwards. *)
Definition allocate (m : machine) : Z * machine :=
  let p := self m in
  if 1 <? num_free_entries_ p then
    (next_free_ p,
     {| self := {| max_entries_ := max_entries_ p;
                   entry_size_ := entry_size_ p;
                   num_free_entries_ := uint (num_free_entries_ p - 1);
                   pool_mem_ := pool_mem_ p;
                   next_free_ := element_at p (load_uint (mem m) (next_free_ p)) |};
        mem := mem m |})
  else if num_free_entries_ p =? 1 then
    (next_free_ p,
     {| self := {| max_entries_ := max_entries_ p;
                   entry_size_ := entry_size_ p;
                   num_free_entries_ := 0;
                   pool_mem_ := pool_mem_ p;
                   next_free_ := nullptr |};
        mem := mem m |})
  else (nullptr, m).

(** Line 123: the condition [deallocate] asserts. *)
Definition deallocate_assert (p : MemoryPoolBase) (ptr : Z) : bool :=
  (pool_mem_ p <=? ptr) && (ptr <? pool_mem_ p + uint (entry_size_ p * max_entries_ p)).

(** Lines 120-130, past the assertion of line 123 ([deallocate_assert];
    [deallocate_checked] is the call with the assertion in force). *)
Definition deallocate (m : machine) (ptr : Z) : machine :=
  let p := self m in
  let index := if negb (next_free_ p =? nullptr)
               then index_of p (next_free_ p)
               else max_entries_ p in
  {| self := {| max_entries_ := max_entries_ p;
                entry_size_ := entry_size_ p;
                num_free_entries_ := uint (num_free_entries_ p + 1);
                pool_mem_ := pool_mem_ p;
                next_free_ := ptr |};
     mem := store_uint (mem m) ptr index |}.

(** [deallocate] in a build that keeps the assertion of line 123: where
    the condition fails the program aborts and there is no machine
    afterwards. *)
Definition deallocate_checked (m : machine) (ptr : Z) : option machine :=
  if deallocate_assert (self m) ptr then Some (deallocate m ptr) else None.

(** [n] calls of [allocate] in a row: the pointers in the order returned,
    and the machine after the last call. *)
Fixpoint allocate_n (n : nat) (m : machine) : list Z * machine :=
  match n with
  | O => ([], m)
  | S n' => let (ptr, m1) := allocate m in
            let (ptrs, m2) := allocate_n n' m1 in
            (ptr :: ptrs, m2)
  end.

(** The machines a client can bring about from a pool constructed with
    [entry_size] and [max_entries] on heap [h0], together with the pointers
    it holds.  The client calls [allocate]; calls [deallocate] on a pointer
    it holds (the precondition of [deallocate]); and writes bytes into the
    entries it holds. *)
Inductive reachable (entry_size max_entries : Z) (h0 : heap) : machine -> list Z -> Prop :=
| reach_new :
    reachable entry_size max_entries h0 (MemoryPoolBase_new entry_size max_entries h0) []
| reach_allocate m live :
    reachable entry_size max_entries h0 m live ->
    reachable entry_size max_entries h0 (snd (allocate m)) (hold (fst (allocate m)) live)
| reach_deallocate m live ptr :
    reachable entry_size max_entries h0 m live ->
    In ptr live ->
    reachable entry_size max_entries h0 (deallocate m ptr) (remove Z.eq_dec ptr live)
| reach_write m live ptr a b :
    reachable entry_size max_entries h0 m live ->
    In ptr live ->
    ptr <= a < ptr + entry_size_ (self m) ->
    0 <= b < 256 ->
    reachable entry_size max_entries h0 {| self := self m; mem := poke (mem m) a b |} live.

(** The free list as a list of entry indices: each entry but the last
    stores the index of its successor. *)
Fixpoint linked (p : MemoryPoolBase) (h : heap) (fl : list Z) : Prop :=
  match fl with
  | [] => True
  | i :: rest =>
      match rest with
      | [] => True
      | j :: _ => load_uint h (element_at p i) = j
      end /\ linked p h rest
  end.

(** The free head points at the first entry of the list. *)
Definition headed (p : MemoryPoolBase) (fl : list Z) : Prop :=
  match fl with
  | [] => True
  | i :: _ => next_free_ p = element_at p i
  end.

(** The block the constructor obtains for [max_entries] entries of
    [entry_size] bytes (line 71). *)
Definition block_of (entry_size max_entries : Z) : Z :=
  malloc_block (uint (max_entries * entry_size)) MIN_BLOCK_ALIGN.

(** The bookkeeping every reachable machine keeps, whatever the entry size:
    the three constants, the free count against the pointers held, and the
    free head against the free count. *)
Definition counted (entry_size max_entries : Z) (m : machine) (live : list Z) : Prop :=
  max_entries_ (self m) = max_entries /\
  entry_size_ (self m) = entry_size /\
  pool_mem_ (self m) = block_of entry_size max_entries /\
  0 <= num_free_entries_ (self m) /\
  num_free_entries_ (self m) + Z.of_nat (length live) <= max_entries /\
  (forall q, In q live ->
     q <> nullptr /\ (nullptr < pool_mem_ (self m) -> pool_mem_ (self m) <= q)) /\
  (nullptr < pool_mem_ (self m) -> 0 < num_free_entries_ (self m) ->
     pool_mem_ (self m) <= next_free_ (self m)) /\
  (0 < max_entries -> num_free_entries_ (self m) = 0 -> next_free_ (self m) = nullptr).

(** The layout of a pool whose entries can hold a link: [fl] lists the
    indices of the free entries from the free head on, and the pointers
    held are entries off that list, each held once. *)
Definition slotted (m : machine) (live : list Z) (fl : list Z) : Prop :=
  num_free_entries_ (self m) = Z.of_nat (length fl) /\
  NoDup fl /\
  (forall i, In i fl -> 0 <= i < max_entries_ (self m)) /\
  headed (self m) fl /\
  linked (self m) (mem m) fl /\
  NoDup live /\
  (forall q, In q live ->
     exists i, 0 <= i < max_entries_ (self m) /\
               q = pool_mem_ (self m) + i * entry_size_ (self m) /\
               ~ In i fl).

(** An entry can hold a link, and the offsets of all entries fit in a
    [uint_t]. *)
Definition fits (entry_size max_entries : Z) : Prop :=
  Z.of_nat UINT_SIZE <= entry_size /\ 0 < entry_size /\ 0 <= max_entries /\
  max_entries * entry_size < UINT_MODULUS.

(** The indices [i], [i + 1], ... , [i + k - 1]. *)
Fixpoint indices (i : Z) (k : nat) : list Z :=
  match k with
  | O => []
  | S k' => i :: indices (i + 1) k'
  end.

(** Several calls of [deallocate], one per pointer of [ptrs], first to
    last. *)
Definition deallocate_all (ptrs : list Z) (m : machine) : machine :=
  fold_left deallocate ptrs m.

(** The address of entry [i] in the object's block, without wrap-around. *)
Definition entry_address (p : MemoryPoolBase) (i : Z) : Z :=
  pool_mem_ p + i * entry_size_ p.

(** A machine in good order: its layout is [slotted] along the free list
    [fl], its entries can hold a link, its block is not null, and every
    entry is either free or held. *)
Definition tidy (m : machine) (live fl : list Z) : Prop :=
  slotted m live fl /\
  fits (entry_size_ (self m)) (max_entries_ (self m)) /\
  nullptr < pool_mem_ (self m) /\
  num_free_entries_ (self m) + Z.of_nat (length live) = max_entries_ (self m).

(** ** The heap *)

Lemma poke_same (h : heap) (a b : Z) : poke h a b a = b.
Proof. unfold poke. now rewrite Z.eqb_refl. Qed.

Lemma poke_other (h : heap) (a b x : Z) : x <> a -> poke h a b x = h x.
Proof. unfold poke. intros Hx. destruct (Z.eqb_spec x a); congruence. Qed.

Lemma store_le_outside (k : nat) :
  forall h a v x, x < a \/ a + Z.of_nat k <= x -> store_le k h a v x = h x.
Proof.
  induction k as [|k IH]; intros h a v x Hx; simpl; [reflexivity|].
  rewrite IH by lia. apply poke_other. lia.
Qed.

Lemma load_le_ext (k : nat) :
  forall h h' a,
    (forall x, a <= x < a + Z.of_nat k -> h x = h' x) ->
    load_le k h a = load_le k h' a.
Proof.
  induction k as [|k IH]; intros h h' a Hx; simpl; [reflexivity|].
  rewrite (Hx a) by lia. rewrite (IH h h' (a + 1)); [reflexivity|].
  intros x Hr. apply Hx. lia.
Qed.

Lemma load_store_le (k : nat) :
  forall h a v, load_le k (store_le k h a v) a = v mod 256 ^ Z.of_nat k.
Proof.
  induction k as [|k IH]; intros h a v.
  - simpl. now rewrite Z.mod_1_r.
  - cbn [load_le store_le]. rewrite IH.
    rewrite store_le_outside by lia. rewrite poke_same.
    rewrite Nat2Z.inj_succ, Z.pow_succ_r by lia.
    rewrite Z.rem_mul_r by lia. reflexivity.
Qed.

Lemma load_uint_store_uint (h : heap) (a v : Z) :
  is_uint v -> load_uint (store_uint h a v) a = v.
Proof.
  intros Hv. unfold load_uint, store_uint. rewrite load_store_le.
  apply Z.mod_small. exact Hv.
Qed.

Lemma load_uint_store_uint_apart (h : heap) (a b v : Z) :
  a + Z.of_nat UINT_SIZE <= b \/ b + Z.of_nat UINT_SIZE <= a ->
  load_uint (store_uint h b v) a = load_uint h a.
Proof.
  intros Hd. unfold load_uint, store_uint. apply load_le_ext.
  intros x Hx. apply store_le_outside. lia.
Qed.

Lemma load_uint_poke_apart (h : heap) (a x b : Z) :
  x < a \/ a + Z.of_nat UINT_SIZE <= x ->
  load_uint (poke h x b) a = load_uint h a.
Proof.
  intros Hd. unfold load_uint. apply load_le_ext.
  intros y Hy. apply poke_other. lia.
Qed.

Lemma UINT_MODULUS_pos : 0 < UINT_MODULUS.
Proof. unfold UINT_MODULUS. apply Z.pow_pos_nonneg; lia. Qed.

Lemma uint_is_uint (z : Z) : is_uint (uint z).
Proof. unfold is_uint, uint. apply Z.mod_pos_bound, UINT_MODULUS_pos. Qed.

Lemma uint_small (z : Z) : is_uint z -> uint z = z.
Proof. intros Hz. unfold uint. now apply Z.mod_small. Qed.

(** ** Bookkeeping of the reachable machines *)

Lemma hold_length (ptr : Z) (live : list Z) :
  (Z.of_nat (length (hold ptr live)) <= Z.of_nat (length live) + 1)%Z.
Proof. unfold hold. destruct (ptr =? nullptr); simpl length; lia. Qed.

Lemma hold_In (ptr : Z) (live : list Z) (q : Z) :
  In q (hold ptr live) -> In q live \/ (q = ptr /\ ptr <> nullptr).
Proof.
  unfold hold. destruct (Z.eqb_spec ptr nullptr) as [E|E]; simpl.
  - now left.
  - intros [<-|H]; [now right | now left].
Qed.

Lemma In_remove_In (x q : Z) (l : list Z) :
  In q (remove Z.eq_dec x l) -> In q l.
Proof. intros H. now apply in_remove in H. Qed.

Lemma counted_new (entry_size max_entries : Z) (h0 : heap) :
  is_uint max_entries ->
  counted entry_size max_entries (MemoryPoolBase_new entry_size max_entries h0) [].
Proof.
  intros [Hn0 Hn1]. unfold counted, MemoryPoolBase_new, block_of. cbn [self mem
    max_entries_ entry_size_ num_free_entries_ pool_mem_ next_free_ length Z.of_nat In].
  repeat split; try reflexivity; try lia; try contradiction.
Qed.

Lemma counted_allocate (entry_size max_entries : Z) (m : machine) (live : list Z) :
  is_uint max_entries ->
  counted entry_size max_entries m live ->
  counted entry_size max_entries (snd (allocate m)) (hold (fst (allocate m)) live).
Proof.
  intros [Hn0 Hn1] (Hmax & Hes & Hblk & Hc0 & Hc1 & Hlive & Hhead & Hnull).
  pose proof (hold_length (fst (allocate m)) live) as Hlen.
  unfold allocate in *.
  destruct (Z.ltb_spec 1 (num_free_entries_ (self m))) as [Hgt|Hle].
  - cbn [fst snd self mem max_entries_ entry_size_ num_free_entries_ pool_mem_
         next_free_] in *.
    assert (Hu : uint (num_free_entries_ (self m) - 1) = num_free_entries_ (self m) - 1)
      by (apply uint_small; unfold is_uint; lia).
    rewrite Hu. unfold counted.
    cbn [self mem max_entries_ entry_size_ num_free_entries_ pool_mem_ next_free_].
    repeat split; try assumption; try lia.
    + apply hold_In in H. destruct H as [H|[-> H]]; [now apply Hlive | exact H].
    + intros Hb. apply hold_In in H. destruct H as [H|[-> H]].
      * now apply Hlive.
      * apply Hhead; lia.
    + intros Hb _. unfold element_at.
      pose proof (uint_is_uint (load_uint (mem m) (next_free_ (self m)) * entry_size_ (self m))) as Hr.
      unfold is_uint in Hr. lia.
  - destruct (Z.eqb_spec (num_free_entries_ (self m)) 1) as [H1|H1].
    + cbn [fst snd self mem max_entries_ entry_size_ num_free_entries_ pool_mem_
           next_free_] in *.
      unfold counted.
      cbn [self mem max_entries_ entry_size_ num_free_entries_ pool_mem_ next_free_].
      repeat split; try assumption; try lia.
      * apply hold_In in H. destruct H as [H|[-> H]]; [now apply Hlive | exact H].
      * intros Hb. apply hold_In in H. destruct H as [H|[-> H]].
        -- now apply Hlive.
        -- apply Hhead; lia.
    + cbn [fst snd] in *. unfold hold. rewrite Z.eqb_refl.
      unfold counted. repeat split; try assumption; try lia; now apply Hlive.
Qed.

Lemma counted_deallocate (entry_size max_entries : Z) (m : machine) (live : list Z) (ptr : Z) :
  is_uint max_entries ->
  counted entry_size max_entries m live ->
  In ptr live ->
  counted entry_size max_entries (deallocate m ptr) (remove Z.eq_dec ptr live) /\
  num_free_entries_ (self (deallocate m ptr)) = num_free_entries_ (self m) + 1.
Proof.
  intros [Hn0 Hn1] (Hmax & Hes & Hblk & Hc0 & Hc1 & Hlive & Hhead & Hnull) Hin.
  pose proof (remove_length_lt Z.eq_dec live ptr Hin) as Hlen.
  assert (Hu : uint (num_free_entries_ (self m) + 1) = num_free_entries_ (self m) + 1)
    by (apply uint_small; unfold is_uint; lia).
  unfold deallocate, counted.
  cbn [self mem max_entries_ entry_size_ num_free_entries_ pool_mem_ next_free_].
  rewrite Hu. repeat split; try assumption; try lia.
  - apply In_remove_In in H. now apply Hlive.
  - apply In_remove_In in H. now apply Hlive.
  - intros Hb _. now apply Hlive.
Qed.

Lemma reachable_counted (entry_size max_entries : Z) (h0 : heap) (m : machine) (live : list Z) :
  is_uint max_entries ->
  reachable entry_size max_entries h0 m live ->
  counted entry_size max_entries m live.
Proof.
  intros Hn Hr. induction Hr as [|m live _ IH|m live ptr _ IH Hin|m live ptr a b _ IH Hin Ha Hb].
  - now apply counted_new.
  - now apply counted_allocate.
  - now apply counted_deallocate.
  - exact IH.
Qed.

(** ** Claims that rest on the bookkeeping alone *)

Lemma allocate_n_drains (k : nat) :
  forall m,
    num_free_entries_ (self m) = Z.of_nat k ->
    Z.of_nat k < UINT_MODULUS ->
    nullptr < pool_mem_ (self m) ->
    pool_mem_ (self m) <= next_free_ (self m) ->
    length (fst (allocate_n k m)) = k /\
    Forall (fun ptr => ptr <> nullptr) (fst (allocate_n k m)) /\
    num_free_entries_ (self (snd (allocate_n k m))) = 0 /\
    max_entries_ (self (snd (allocate_n k m))) = max_entries_ (self m).
Proof.
  induction k as [|k IH]; intros m Hc Hk Hb Hh.
  - simpl. repeat split; [constructor | exact Hc].
  - cbn [allocate_n]. unfold allocate.
    destruct (Z.ltb_spec 1 (num_free_entries_ (self m))) as [Hgt|Hle].
    + match goal with |- context [allocate_n k ?m1] =>
        specialize (IH m1); destruct (allocate_n k m1) as [ptrs m2] end.
      cbn [fst snd self mem max_entries_ entry_size_ num_free_entries_ pool_mem_
           next_free_ length] in *.
      assert (Hu : uint (num_free_entries_ (self m) - 1) = Z.of_nat k)
        by (rewrite uint_small; unfold is_uint; lia).
      destruct IH as (Hl & Hf & Hz & Hm); try assumption; try lia.
      * unfold element_at.
        pose proof (uint_is_uint (load_uint (mem m) (next_free_ (self m)) * entry_size_ (self m))) as Hr.
        unfold is_uint in Hr. lia.
      * repeat split; try assumption; try lia.
        constructor; [unfold nullptr in *; lia | assumption].
    + assert (k = O) by lia. subst k.
      destruct (Z.eqb_spec (num_free_entries_ (self m)) 1) as [H1|H1]; [|lia].
      cbn [allocate_n fst snd self mem max_entries_ entry_size_ num_free_entries_
           pool_mem_ next_free_ length].
      repeat split. constructor; [unfold nullptr in *; lia | constructor].
Qed.

(** C1.  A fresh pool of capacity [n > 0] whose block was obtained: the
    first [n] calls of [allocate] all return a non-null pointer, the call
    after them returns null, and after the [n] calls [get_stats] reports an
    allocation count of [n]. *)
Theorem capacity_bound (entry_size n : Z) (h0 : heap) :
  is_uint n -> 0 < n -> nullptr < block_of entry_size n ->
  let run := allocate_n (Z.to_nat n) (MemoryPoolBase_new entry_size n h0) in
  length (fst run) = Z.to_nat n /\
  Forall (fun ptr => ptr <> nullptr) (fst run) /\
  fst (allocate (snd run)) = nullptr /\
  allocation_count (get_stats (self (snd run))) = n.
Proof.
  intros [Hn0 Hn1] Hpos Hblk run.
  destruct (allocate_n_drains (Z.to_nat n) (MemoryPoolBase_new entry_size n h0))
    as (Hl & Hf & Hz & Hm).
  - cbn [MemoryPoolBase_new self num_free_entries_]. lia.
  - lia.
  - exact Hblk.
  - cbn [MemoryPoolBase_new self pool_mem_ next_free_]. lia.
  - fold run in Hl, Hf, Hz, Hm. repeat split; try assumption.
    + unfold allocate. rewrite Hz. reflexivity.
    + unfold get_stats. cbn [allocation_count]. rewrite Hz, Hm.
      cbn [MemoryPoolBase_new self max_entries_]. rewrite Z.sub_0_r.
      apply uint_small. split; assumption.
Qed.

(** C3.  In a reachable machine of a pool whose block was obtained:
    with no free entry [allocate] returns null and the machine (object and
    heap) is the same afterwards; and [allocate] returns null in no other
    case. *)
Theorem allocate_exhausted (entry_size n : Z) (h0 : heap) (m : machine) (live : list Z) :
  is_uint n -> nullptr < block_of entry_size n ->
  reachable entry_size n h0 m live ->
  (num_free_entries_ (self m) = 0 -> allocate m = (nullptr, m)) /\
  (fst (allocate m) = nullptr -> num_free_entries_ (self m) = 0).
Proof.
  intros Hn Hblk Hr.
  destruct (reachable_counted _ _ _ _ _ Hn Hr) as (_ & _ & Hb & Hc0 & _ & _ & Hhead & _).
  rewrite <- Hb in Hblk. unfold allocate. split.
  - intros ->. reflexivity.
  - destruct (Z.ltb_spec 1 (num_free_entries_ (self m))).
    + cbn [fst]. intros E. specialize (Hhead Hblk). unfold nullptr in *. lia.
    + destruct (Z.eqb_spec (num_free_entries_ (self m)) 1).
      * cbn [fst]. intros E. specialize (Hhead Hblk). unfold nullptr in *. lia.
      * lia.
Qed.

(** C6.  In every reachable machine the free count lies between [0] and
    the capacity [n], and the allocation count of [get_stats] and the free
    count add up to [n]. *)
Theorem conservation (entry_size n : Z) (h0 : heap) (m : machine) (live : list Z) :
  is_uint n ->
  reachable entry_size n h0 m live ->
  0 <= num_free_entries_ (self m) <= n /\
  allocation_count (get_stats (self m)) + num_free_entries_ (self m) = n.
Proof.
  intros Hn Hr.
  destruct (reachable_counted _ _ _ _ _ Hn Hr) as (Hmax & _ & _ & Hc0 & Hc1 & _).
  destruct Hn as [Hn0 Hn1].
  split; [lia|]. unfold get_stats. cbn [allocation_count].
  rewrite Hmax, uint_small by (unfold is_uint; lia). lia.
Qed.

(** C10.  A pool constructed with capacity [0]: the constructor returns
    without any check and without touching the heap; the pool never leaves
    its first state, in which the free count is [0], [allocate] returns
    null, [get_stats] reports no allocation, and the condition asserted by
    the destructor holds. *)
Theorem zero_capacity (entry_size : Z) (h0 : heap) (m : machine) (live : list Z) :
  reachable entry_size 0 h0 m live ->
  m = MemoryPoolBase_new entry_size 0 h0 /\
  mem m = h0 /\
  live = [] /\
  num_free_entries_ (self m) = 0 /\
  allocate m = (nullptr, m) /\
  allocation_count (get_stats (self m)) = 0 /\
  destructor_assert (self m) = true.
Proof.
  intros Hr.
  assert (H : m = MemoryPoolBase_new entry_size 0 h0 /\ live = []).
  { induction Hr as [|m live _ IH|m live ptr _ IH Hin|m live ptr a b _ IH Hin Ha Hb].
    - now split.
    - destruct IH as [-> ->]. now split.
    - destruct IH as [_ ->]. contradiction.
    - destruct IH as [_ ->]. contradiction. }
  destruct H as [-> ->]. repeat split.
Qed.

(** C8.  When [posix_memalign] fails, [malloc_block] hands back null and
    the constructor goes on with it: the object it leaves has a null block
    and a null free head and claims [n] free entries; it has no other
    outcome. *)
Theorem construction_ignores_failure (entry_size n : Z) (h0 : heap) :
  fst (posix_memalign MIN_BLOCK_ALIGN (uint (n * entry_size))) <> 0 ->
  block_of entry_size n = nullptr /\
  self (MemoryPoolBase_new entry_size n h0) =
    {| max_entries_ := n; entry_size_ := entry_size; num_free_entries_ := n;
       pool_mem_ := nullptr; next_free_ := nullptr |}.
Proof.
  intros Hfail.
  assert (Hb : block_of entry_size n = nullptr).
  { unfold block_of, malloc_block.
    destruct (posix_memalign MIN_BLOCK_ALIGN (uint (n * entry_size))) as [result ptr].
    cbn [fst] in Hfail. destruct (Z.eqb_spec result 0); [contradiction | reflexivity]. }
  split; [exact Hb|].
  unfold MemoryPoolBase_new. cbn [self]. fold (block_of entry_size n). now rewrite Hb.
Qed.

(** ** Layout of a pool whose entries can hold a link *)

Lemma fits_is_uint (entry_size n : Z) : fits entry_size n -> is_uint n.
Proof. unfold fits, is_uint. intros (_ & He & Hn & Hp). nia. Qed.

Lemma element_at_fits (p : MemoryPoolBase) (j : Z) :
  fits (entry_size_ p) (max_entries_ p) ->
  0 <= j < max_entries_ p ->
  element_at p j = pool_mem_ p + j * entry_size_ p.
Proof.
  unfold fits. intros (_ & He & Hn & Hp) Hj. unfold element_at.
  rewrite uint_small; [reflexivity|]. unfold is_uint. nia.
Qed.

Lemma index_of_entry (p : MemoryPoolBase) (j : Z) :
  fits (entry_size_ p) (max_entries_ p) ->
  0 <= j < max_entries_ p ->
  index_of p (pool_mem_ p + j * entry_size_ p) = j.
Proof.
  unfold fits. intros (_ & He & Hn & Hp) Hj. unfold index_of.
  replace (pool_mem_ p + j * entry_size_ p - pool_mem_ p) with (j * entry_size_ p) by lia.
  rewrite Z.quot_mul by lia. apply uint_small. unfold is_uint. nia.
Qed.

Lemma element_at_layout (p p' : MemoryPoolBase) (k : Z) :
  pool_mem_ p' = pool_mem_ p -> entry_size_ p' = entry_size_ p ->
  element_at p' k = element_at p k.
Proof. intros Hb He. unfold element_at. now rewrite Hb, He. Qed.

Lemma init_free_list_spec (fuel : nat) :
  forall p i h,
    fits (entry_size_ p) (max_entries_ p) ->
    0 <= i <= max_entries_ p ->
    max_entries_ p - i <= Z.of_nat fuel ->
    (forall j, i <= j < max_entries_ p ->
       load_uint (init_free_list fuel p i h) (element_at p j) = j + 1) /\
    (forall j, 0 <= j < i ->
       load_uint (init_free_list fuel p i h) (element_at p j) = load_uint h (element_at p j)).
Proof.
  induction fuel as [|fuel IH]; intros p i h Hfit Hi Hfuel.
  - simpl. split; [intros j Hj; lia | reflexivity].
  - cbn [init_free_list]. destruct (Z.ltb_spec i (max_entries_ p)) as [Hlt|Hge].
    + pose proof (fits_is_uint _ _ Hfit) as [_ Hmax].
      assert (Hu : uint (i + 1) = i + 1) by (apply uint_small; unfold is_uint; lia).
      rewrite Hu.
      destruct (IH p (i + 1) (store_uint h (element_at p i) (i + 1)) Hfit) as [Ha Hb];
        try lia.
      split.
      * intros j Hj. destruct (Z.eq_dec j i) as [->|Hne].
        -- rewrite Hb by lia. apply load_uint_store_uint. unfold is_uint. lia.
        -- apply Ha. lia.
      * intros j Hj. rewrite Hb by lia.
        apply load_uint_store_uint_apart.
        rewrite !element_at_fits by (assumption || lia).
        destruct Hfit as (Hw & He & _). left. nia.
    + split; [intros j Hj; lia | reflexivity].
Qed.

Lemma init_free_list_fuel (fuel : nat) :
  forall p i h,
    is_uint (max_entries_ p) ->
    0 <= i <= max_entries_ p ->
    max_entries_ p - i <= Z.of_nat fuel ->
    init_free_list fuel p i h = init_free_list (Z.to_nat (max_entries_ p - i)) p i h.
Proof.
  induction fuel as [|fuel IH]; intros p i h Hmax Hi Hfuel.
  - replace (Z.to_nat (max_entries_ p - i)) with O by lia. reflexivity.
  - cbn [init_free_list]. destruct (Z.ltb_spec i (max_entries_ p)) as [Hlt|Hge].
    + replace (Z.to_nat (max_entries_ p - i)) with (S (Z.to_nat (max_entries_ p - (i + 1)))) by lia.
      cbn [init_free_list]. destruct (Z.ltb_spec i (max_entries_ p)); [|lia].
      assert (Hu : uint (i + 1) = i + 1)
        by (apply uint_small; unfold is_uint in *; lia).
      rewrite Hu. apply IH; try assumption; lia.
    + replace (Z.to_nat (max_entries_ p - i)) with O by lia. reflexivity.
Qed.

Lemma indices_In (k : nat) :
  forall i j, In j (indices i k) <-> i <= j < i + Z.of_nat k.
Proof.
  induction k as [|k IH]; intros i j; cbn [indices In].
  - lia.
  - rewrite IH. lia.
Qed.

Lemma indices_NoDup (k : nat) : forall i, NoDup (indices i k).
Proof.
  induction k as [|k IH]; intros i; cbn [indices]; constructor.
  - rewrite indices_In. lia.
  - apply IH.
Qed.

Lemma indices_length (k : nat) : forall i, length (indices i k) = k.
Proof. induction k as [|k IH]; intros i; cbn [indices length]; [|rewrite IH]; reflexivity. Qed.

Lemma indices_linked (p : MemoryPoolBase) (h : heap) (k : nat) :
  forall i,
    (forall j, i <= j < i + Z.of_nat k -> load_uint h (element_at p j) = j + 1) ->
    linked p h (indices i k).
Proof.
  induction k as [|k IH]; intros i Hld; cbn [indices linked]; [exact I|].
  split.
  - destruct k as [|k]; cbn [indices]; [exact I|]. apply Hld. lia.
  - apply IH. intros j Hj. apply Hld. lia.
Qed.

Lemma linked_step (p : MemoryPoolBase) (h : heap) (i j : Z) (r : list Z) :
  linked p h (i :: j :: r) ->
  load_uint h (element_at p i) = j /\ linked p h (j :: r).
Proof. intros H. exact H. Qed.

Lemma linked_heap_ext (p : MemoryPoolBase) (h h' : heap) (fl : list Z) :
  (forall k, In k fl -> load_uint h' (element_at p k) = load_uint h (element_at p k)) ->
  linked p h fl -> linked p h' fl.
Proof.
  induction fl as [|i r IH]; cbn [linked]; intros Hext H; [exact I|].
  destruct H as [H1 H2]. split.
  - destruct r as [|j r]; [exact I|]. rewrite Hext by (left; reflexivity). exact H1.
  - apply IH; [|exact H2]. intros k Hk. apply Hext. now right.
Qed.

Lemma linked_layout (p p' : MemoryPoolBase) (h : heap) (fl : list Z) :
  pool_mem_ p' = pool_mem_ p -> entry_size_ p' = entry_size_ p ->
  linked p h fl -> linked p' h fl.
Proof.
  intros Hb He. induction fl as [|i r IH]; cbn [linked]; [trivial|].
  intros [H1 H2]. split; [|now apply IH].
  destruct r as [|j r]; [exact I|]. now rewrite (element_at_layout p p').
Qed.

Lemma NoDup_remove_Z (x : Z) (l : list Z) : NoDup l -> NoDup (remove Z.eq_dec x l).
Proof.
  induction 1 as [|y l Hy Hl IH]; cbn [remove]; [constructor|].
  destruct (Z.eq_dec x y); [exact IH|]. constructor; [|exact IH].
  intros Hin. apply in_remove in Hin. now apply Hy.
Qed.

Lemma held_off_list (p : MemoryPoolBase) (live fl : list Z) (i : Z) :
  0 < entry_size_ p ->
  (forall q, In q live ->
     exists i', 0 <= i' < max_entries_ p /\
                q = pool_mem_ p + i' * entry_size_ p /\ ~ In i' fl) ->
  In i fl ->
  ~ In (pool_mem_ p + i * entry_size_ p) live.
Proof.
  intros He Hlv Hi Hin. destruct (Hlv _ Hin) as (i' & _ & E & Hn).
  assert (i' = i) by nia. subst i'. contradiction.
Qed.

Lemma slotted_new (entry_size n : Z) (h0 : heap) :
  fits entry_size n ->
  slotted (MemoryPoolBase_new entry_size n h0) [] (indices 0 (Z.to_nat n)).
Proof.
  intros Hfit. pose proof Hfit as (Hw & He & Hn & Hp).
  unfold slotted, MemoryPoolBase_new.
  cbn [self mem max_entries_ entry_size_ num_free_entries_ pool_mem_ next_free_].
  fold (block_of entry_size n).
  set (p := {| max_entries_ := n; entry_size_ := entry_size; num_free_entries_ := n;
               pool_mem_ := block_of entry_size n; next_free_ := block_of entry_size n |}).
  repeat split.
  - rewrite indices_length. lia.
  - apply indices_NoDup.
  - apply indices_In in H. lia.
  - apply indices_In in H. lia.
  - destruct (Z.to_nat n) eqn:E; cbn [indices headed]; [exact I|].
    rewrite element_at_fits; cbn [p max_entries_ entry_size_ pool_mem_ next_free_];
      [lia | exact Hfit | lia].
  - apply indices_linked. intros j Hj.
    apply (init_free_list_spec (Z.to_nat n) p 0 h0); cbn [p max_entries_ entry_size_];
      try assumption; lia.
  - constructor.
  - contradiction.
Qed.

Lemma slotted_allocate (m : machine) (live fl : list Z) :
  fits (entry_size_ (self m)) (max_entries_ (self m)) ->
  num_free_entries_ (self m) <= max_entries_ (self m) ->
  slotted m live fl ->
  (exists fl', slotted (snd (allocate m)) (hold (fst (allocate m)) live) fl') /\
  (0 < num_free_entries_ (self m) ->
   ~ In (fst (allocate m)) live /\
   exists i, 0 <= i < max_entries_ (self m) /\
             fst (allocate m) = pool_mem_ (self m) + i * entry_size_ (self m)).
Proof.
  intros Hfit Hle (Hc & Hnd & Hrng & Hhd & Hlk & Hndl & Hlv).
  pose proof Hfit as (Hw & He & Hn & Hp).
  pose proof (fits_is_uint _ _ Hfit) as [_ Hmax].
  destruct fl as [|i fl].
  { cbn [length Z.of_nat] in Hc. unfold allocate. rewrite Hc.
    cbn [Z.ltb Z.eqb Z.compare fst snd]. split; [|lia].
    exists []. unfold hold. rewrite Z.eqb_refl.
    unfold slotted. cbn [length Z.of_nat].
    repeat split; try assumption; contradiction. }
  assert (Hi : 0 <= i < max_entries_ (self m)) by (apply Hrng; left; reflexivity).
  assert (Hptr : next_free_ (self m) = pool_mem_ (self m) + i * entry_size_ (self m)).
  { cbn [headed] in Hhd. rewrite Hhd. now apply element_at_fits. }
  assert (Hfresh : ~ In (next_free_ (self m)) live).
  { rewrite Hptr. apply (held_off_list (self m) live (i :: fl) i); [assumption..|left; reflexivity]. }
  assert (Hlive' :
    forall q, In q (hold (next_free_ (self m)) live) ->
      exists i', 0 <= i' < max_entries_ (self m) /\
                 q = pool_mem_ (self m) + i' * entry_size_ (self m) /\ ~ In i' fl).
  { intros q Hq. apply hold_In in Hq. destruct Hq as [Hq|[-> _]].
    - destruct (Hlv _ Hq) as (i' & Hr & E & Hni). exists i'. repeat split; try assumption; try lia.
      intros Hin. apply Hni. now right.
    - exists i. repeat split; try assumption; try lia. now inversion Hnd. }
  assert (Hndl' : NoDup (hold (next_free_ (self m)) live)).
  { unfold hold. destruct (next_free_ (self m) =? nullptr); [assumption|].
    now constructor. }
  assert (Hres : fst (allocate m) = next_free_ (self m)).
  { unfold allocate. rewrite Hc. cbn [length]. 
    destruct (Z.ltb_spec 1 (Z.of_nat (S (length fl)))); [reflexivity|].
    destruct (Z.eqb_spec (Z.of_nat (S (length fl))) 1); [reflexivity|lia]. }
  split.
  2:{ intros _. rewrite Hres. split; [exact Hfresh|]. exists i. now split. }
  rewrite Hres. exists fl. unfold allocate.
  destruct (Z.ltb_spec 1 (num_free_entries_ (self m))) as [Hgt|Hngt].
  - destruct fl as [|j fl]; [cbn [length] in Hc; lia|].
    assert (Hj : 0 <= j < max_entries_ (self m)) by (apply Hrng; right; left; reflexivity).
    unfold slotted.
    cbn [snd self mem max_entries_ entry_size_ num_free_entries_ pool_mem_ next_free_].
    split; [|split; [|split; [|split; [|split; [|split]]]]].
    + rewrite uint_small by (unfold is_uint; lia). rewrite Hc. cbn [length]. lia.
    + now inversion Hnd.
    + intros k Hk. apply Hrng. now right.
    + apply linked_step in Hlk. destruct Hlk as [Hld _].
      cbn [headed] in *. rewrite Hhd, Hld. apply element_at_layout; reflexivity.
    + apply linked_step in Hlk. destruct Hlk as [_ Hlk].
      apply (linked_layout (self m)); [reflexivity..|exact Hlk].
    + exact Hndl'.
    + exact Hlive'.
  - destruct (Z.eqb_spec (num_free_entries_ (self m)) 1) as [H1|H1].
    + destruct fl as [|j fl]; [|cbn [length] in Hc; lia].
      unfold slotted.
      cbn [snd self mem max_entries_ entry_size_ num_free_entries_ pool_mem_ next_free_
           length Z.of_nat headed linked].
      repeat split; try assumption; try constructor; try contradiction.
    + cbn [length] in Hc. lia.
Qed.

Lemma slotted_deallocate (m : machine) (live fl : list Z) (ptr : Z) :
  fits (entry_size_ (self m)) (max_entries_ (self m)) ->
  nullptr < pool_mem_ (self m) ->
  num_free_entries_ (self m) < max_entries_ (self m) ->
  slotted m live fl ->
  In ptr live ->
  exists fl', slotted (deallocate m ptr) (remove Z.eq_dec ptr live) fl'.
Proof.
  intros Hfit Hblk Hlt (Hc & Hnd & Hrng & Hhd & Hlk & Hndl & Hlv) Hin.
  pose proof Hfit as (Hw & He & Hn & Hp).
  pose proof (fits_is_uint _ _ Hfit) as [_ Hmax].
  destruct (Hlv _ Hin) as (i & Hi & Hptr & Hni).
  exists (i :: fl). unfold slotted, deallocate.
  cbn [self mem max_entries_ entry_size_ num_free_entries_ pool_mem_ next_free_].
  split; [|split; [|split; [|split; [|split; [|split]]]]].
  - rewrite uint_small by (unfold is_uint; lia). rewrite Hc. cbn [length]. lia.
  - now constructor.
  - intros k [<-|Hk]; [exact Hi | now apply Hrng].
  - cbn [headed]. rewrite Hptr. symmetry.
    rewrite <- (element_at_fits (self m) i Hfit Hi).
    apply element_at_layout; reflexivity.
  - match goal with |- linked ?p' _ _ => apply (linked_layout (self m) p'); [reflexivity..|] end.
    cbn [linked]. split.
    + destruct fl as [|j fl]; [exact I|].
      assert (Hj : 0 <= j < max_entries_ (self m)) by (apply Hrng; left; reflexivity).
      cbn [headed] in Hhd. rewrite (element_at_fits _ _ Hfit Hj) in Hhd.
      rewrite (element_at_fits _ _ Hfit Hi), <- Hptr.
      rewrite load_uint_store_uint.
      * destruct (Z.eqb_spec (next_free_ (self m)) nullptr) as [E|E].
        -- unfold nullptr in *. nia.
        -- cbn [negb]. rewrite Hhd. now apply index_of_entry.
      * destruct (negb (next_free_ (self m) =? nullptr)); [apply uint_is_uint|].
        unfold is_uint. lia.
    + apply (linked_heap_ext (self m) (mem m)); [|exact Hlk].
      intros k Hk. apply load_uint_store_uint_apart.
      assert (0 <= k < max_entries_ (self m)) by now apply Hrng.
      assert (k <> i) by (intros ->; contradiction).
      rewrite (element_at_fits _ _ Hfit) by assumption. rewrite Hptr.
      destruct (Z.lt_total k i) as [Hki|[Hki|Hki]]; [left; nia | contradiction | right; nia].
  - now apply NoDup_remove_Z.
  - intros q Hq. apply in_remove in Hq. destruct Hq as [Hq Hne].
    destruct (Hlv _ Hq) as (i' & Hi' & E & Hni'). exists i'. repeat split; try assumption; try lia.
    intros [<-|Hin']; [|contradiction]. apply Hne. now rewrite E, Hptr.
Qed.

Lemma slotted_write (m : machine) (live fl : list Z) (ptr a b : Z) :
  fits (entry_size_ (self m)) (max_entries_ (self m)) ->
  slotted m live fl ->
  In ptr live ->
  ptr <= a < ptr + entry_size_ (self m) ->
  slotted {| self := self m; mem := poke (mem m) a b |} live fl.
Proof.
  intros Hfit (Hc & Hnd & Hrng & Hhd & Hlk & Hndl & Hlv) Hin Ha.
  pose proof Hfit as (Hw & He & Hn & Hp).
  destruct (Hlv _ Hin) as (i & Hi & Hptr & Hni).
  unfold slotted. cbn [self mem].
  split; [|split; [|split; [|split; [|split; [|split]]]]]; try assumption.
  apply (linked_heap_ext (self m) (mem m)); [|exact Hlk].
  intros k Hk. apply load_uint_poke_apart.
  assert (0 <= k < max_entries_ (self m)) by now apply Hrng.
  assert (k <> i) by (intros ->; contradiction).
  rewrite (element_at_fits _ _ Hfit) by assumption.
  destruct (Z.lt_total k i) as [Hki|[Hki|Hki]]; [right; nia | contradiction | left; nia].
Qed.

Lemma reachable_slotted (entry_size n : Z) (h0 : heap) (m : machine) (live : list Z) :
  fits entry_size n ->
  nullptr < block_of entry_size n ->
  reachable entry_size n h0 m live ->
  exists fl, slotted m live fl.
Proof.
  intros Hfit Hblk Hr. pose proof (fits_is_uint _ _ Hfit) as Hn.
  induction Hr as [|m live Hr IH|m live ptr Hr IH Hin|m live ptr a b Hr IH Hin Ha Hb].
  - eexists. now apply slotted_new.
  - destruct IH as [fl IH].
    destruct (reachable_counted _ _ _ _ _ Hn Hr) as (Hmax & Hes & _ & _ & Hc1 & _).
    apply (slotted_allocate m live fl); [rewrite Hmax, Hes; exact Hfit | lia | exact IH].
  - destruct IH as [fl IH].
    destruct (reachable_counted _ _ _ _ _ Hn Hr) as (Hmax & Hes & Hb & _ & Hc1 & _).
    pose proof (remove_length_lt Z.eq_dec live ptr Hin) as Hlen.
    apply (slotted_deallocate m live fl ptr);
      [rewrite Hmax, Hes; exact Hfit | now rewrite Hb | | exact IH | exact Hin].
    destruct live; [contradiction|]. cbn [length] in Hc1. lia.
  - destruct IH as [fl IH].
    destruct (reachable_counted _ _ _ _ _ Hn Hr) as (Hmax & Hes & _).
    exists fl. apply (slotted_write m live fl ptr); try assumption.
    rewrite Hmax, Hes; exact Hfit.
Qed.

Lemma is_aligned_MIN_BLOCK_ALIGN (ptr : Z) :
  is_aligned ptr MIN_BLOCK_ALIGN = true <-> ptr mod 64 = 0.
Proof.
  unfold is_aligned, MIN_BLOCK_ALIGN. change (64 - 1) with (Z.ones 6).
  rewrite Z.land_ones by lia. change (2 ^ 6) with 64. apply Z.eqb_eq.
Qed.

(** C5, amended.  For an entry size of at least [sizeof(uint_t)] and a
    capacity [n > 0] with [n * entry_size] representable in [uint_t]:
    right after construction the free count is [n], the free head is entry
    [0], every entry [i < n] stores [i + 1] in its first word (the last one
    the sentinel [n]), and the entries [0 .. n-1] form the free list in
    index order. *)
Theorem constructor_chain (entry_size n : Z) (h0 : heap) :
  Z.of_nat UINT_SIZE <= entry_size -> 0 < entry_size -> 0 < n ->
  n * entry_size < UINT_MODULUS ->
  let m := MemoryPoolBase_new entry_size n h0 in
  num_free_entries_ (self m) = n /\
  next_free_ (self m) = element_at (self m) 0 /\
  (forall i, 0 <= i < n -> load_uint (mem m) (element_at (self m) i) = i + 1) /\
  load_uint (mem m) (element_at (self m) (n - 1)) = n /\
  linked (self m) (mem m) (indices 0 (Z.to_nat n)).
Proof.
  intros Hw He Hn Hp m.
  assert (Hfit : fits entry_size n) by (unfold fits; repeat split; lia).
  destruct (slotted_new entry_size n h0 Hfit) as (_ & _ & _ & Hhd & Hlk & _).
  fold m in Hhd, Hlk.
  assert (Hall : forall i, 0 <= i < n ->
            load_uint (mem m) (element_at (self m) i) = i + 1).
  { intros i Hi.
    apply (init_free_list_spec (Z.to_nat n) (self m) 0 h0);
      cbn [m MemoryPoolBase_new self max_entries_ entry_size_]; try assumption; lia. }
  split; [reflexivity|]. split; [|split; [exact Hall|split; [|exact Hlk]]].
  - destruct (Z.to_nat n) eqn:E; [lia|]. exact Hhd.
  - rewrite Hall by lia. lia.
Qed.

(** C7, amended.  In a pool whose entries can hold a link, whose offsets
    fit in [uint_t] and whose block was obtained, a non-null pointer
    returned by [allocate] in a reachable machine is the address
    [block + i * entry_size] of an entry [i < n], so the entry lies inside
    the block; it is none of the pointers held, and the pointers held are
    pairwise distinct.  It is aligned to [MIN_BLOCK_ALIGN] when the block
    is and the entry size is a multiple of [MIN_BLOCK_ALIGN]. *)
Theorem allocate_address (entry_size n : Z) (h0 : heap) (m : machine) (live : list Z) :
  Z.of_nat UINT_SIZE <= entry_size -> 0 < entry_size -> 0 < n ->
  n * entry_size < UINT_MODULUS ->
  nullptr < block_of entry_size n ->
  reachable entry_size n h0 m live ->
  fst (allocate m) <> nullptr ->
  let ptr := fst (allocate m) in
  let block := block_of entry_size n in
  (exists i, 0 <= i < n /\ ptr = block + i * entry_size) /\
  (block <= ptr /\ ptr + entry_size <= block + n * entry_size) /\
  ~ In ptr live /\
  NoDup live /\
  (is_aligned block MIN_BLOCK_ALIGN = true -> (MIN_BLOCK_ALIGN | entry_size) ->
   is_aligned ptr MIN_BLOCK_ALIGN = true).
Proof.
  intros Hw He Hn Hp Hblk Hr Hnz ptr block.
  assert (Hfit : fits entry_size n) by (unfold fits; repeat split; lia).
  pose proof (fits_is_uint _ _ Hfit) as Hu.
  destruct (reachable_counted _ _ _ _ _ Hu Hr) as (Hmax & Hes & Hb & Hc0 & Hc1 & _).
  destruct (reachable_slotted _ _ _ _ _ Hfit Hblk Hr) as [fl Hsl].
  assert (Hfree : 0 < num_free_entries_ (self m)).
  { destruct (Z.eq_dec (num_free_entries_ (self m)) 0) as [E|E]; [|lia].
    exfalso. apply Hnz. unfold allocate. rewrite E. reflexivity. }
  destruct (slotted_allocate m live fl) as [_ Hres];
    [rewrite Hmax, Hes; exact Hfit | lia | exact Hsl |].
  destruct (Hres Hfree) as (Hfresh & i & Hi & Hptr).
  rewrite Hmax, Hes, Hb in *. fold ptr block in Hptr, Hfresh.
  split; [exists i; now split|]. split; [nia|]. split; [exact Hfresh|].
  split; [apply Hsl|].
  intros Hal [c Hc]. apply is_aligned_MIN_BLOCK_ALIGN in Hal.
  apply is_aligned_MIN_BLOCK_ALIGN. rewrite Hptr, Hc.
  unfold MIN_BLOCK_ALIGN. rewrite Z.mul_assoc, Z_mod_plus_full. exact Hal.
Qed.

(** X1.  In a pool whose entries can hold a link, whose offsets fit in
    [uint_t] and whose block was obtained, the free entries of every
    reachable machine form a list without repetition, as long as the free
    count, that starts at the free head and is linked through the first
    words; the pointers held are entries off that list. *)
Theorem free_list_shape (entry_size n : Z) (h0 : heap) (m : machine) (live : list Z) :
  Z.of_nat UINT_SIZE <= entry_size -> 0 < entry_size -> 0 < n ->
  n * entry_size < UINT_MODULUS ->
  nullptr < block_of entry_size n ->
  reachable entry_size n h0 m live ->
  exists fl, slotted m live fl.
Proof.
  intros Hw He Hn Hp Hblk Hr.
  apply (reachable_slotted entry_size n h0); try assumption.
  unfold fits. repeat split; lia.
Qed.

(** X2.  In such a pool the condition asserted at the head of
    [deallocate] holds for every pointer the client holds. *)
Theorem deallocate_assert_holds (entry_size n : Z) (h0 : heap) (m : machine)
    (live : list Z) (ptr : Z) :
  Z.of_nat UINT_SIZE <= entry_size -> 0 < entry_size -> 0 < n ->
  n * entry_size < UINT_MODULUS ->
  nullptr < block_of entry_size n ->
  reachable entry_size n h0 m live ->
  In ptr live ->
  deallocate_assert (self m) ptr = true.
Proof.
  intros Hw He Hn Hp Hblk Hr Hin.
  assert (Hfit : fits entry_size n) by (unfold fits; repeat split; lia).
  pose proof (fits_is_uint _ _ Hfit) as Hu.
  destruct (reachable_counted _ _ _ _ _ Hu Hr) as (Hmax & Hes & _).
  destruct (reachable_slotted _ _ _ _ _ Hfit Hblk Hr) as [fl Hsl].
  destruct Hsl as (_ & _ & _ & _ & _ & _ & Hlv).
  destruct (Hlv _ Hin) as (i & Hi & Hptr & _).
  rewrite Hmax, Hes in *. unfold deallocate_assert. rewrite Hmax, Hes.
  rewrite uint_small by (unfold is_uint; nia).
  apply andb_true_intro. split; [apply Z.leb_le | apply Z.ltb_lt]; nia.
Qed.

(** ** Machines in good order *)

Lemma NoDup_remove_length (x : Z) (l : list Z) :
  NoDup l -> In x l -> S (length (remove Z.eq_dec x l)) = length l.
Proof.
  induction 1 as [|y l Hy Hl IH]; [contradiction|].
  intros Hin. cbn [remove]. destruct (Z.eq_dec x y) as [->|Hne].
  - rewrite notin_remove by exact Hy. reflexivity.
  - cbn [length]. f_equal. apply IH. destruct Hin as [E|Hin]; [congruence | exact Hin].
Qed.

Lemma tidy_new (entry_size n : Z) (h0 : heap) :
  fits entry_size n ->
  nullptr < block_of entry_size n ->
  tidy (MemoryPoolBase_new entry_size n h0) [] (indices 0 (Z.to_nat n)).
Proof.
  intros Hfit Hblk. split; [now apply slotted_new|].
  cbn [MemoryPoolBase_new self max_entries_ entry_size_ pool_mem_ num_free_entries_ length].
  repeat split; try apply Hfit; try exact Hblk. lia.
Qed.

Lemma tidy_allocate_cons (m : machine) (live : list Z) (i : Z) (fl : list Z) :
  tidy m live (i :: fl) ->
  fst (allocate m) = entry_address (self m) i /\
  self (snd (allocate m)) =
    {| max_entries_ := max_entries_ (self m);
       entry_size_ := entry_size_ (self m);
       num_free_entries_ := num_free_entries_ (self m) - 1;
       pool_mem_ := pool_mem_ (self m);
       next_free_ := next_free_ (self (snd (allocate m))) |} /\
  mem (snd (allocate m)) = mem m /\
  ~ In (fst (allocate m)) live /\
  tidy (snd (allocate m)) (fst (allocate m) :: live) fl.
Proof.
  intros ((Hc & Hnd & Hrng & Hhd & Hlk & Hndl & Hlv) & Hfit & Hblk & Hex).
  pose proof Hfit as (Hw & He & Hn & Hp).
  pose proof (fits_is_uint _ _ Hfit) as [_ Hmax].
  assert (Hi : 0 <= i < max_entries_ (self m)) by (apply Hrng; left; reflexivity).
  assert (Hptr : next_free_ (self m) = entry_address (self m) i).
  { cbn [headed] in Hhd. rewrite Hhd. now apply element_at_fits. }
  assert (Hfresh : ~ In (next_free_ (self m)) live).
  { rewrite Hptr. apply (held_off_list (self m) live (i :: fl) i); [assumption..|left; reflexivity]. }
  assert (Hlive' :
    forall q, In q (next_free_ (self m) :: live) ->
      exists i', 0 <= i' < max_entries_ (self m) /\
                 q = pool_mem_ (self m) + i' * entry_size_ (self m) /\ ~ In i' fl).
  { intros q [<-|Hq].
    - exists i. repeat split; try assumption; try lia. now inversion Hnd.
    - destruct (Hlv _ Hq) as (i' & Hr & E & Hni). exists i'. repeat split; try assumption; try lia.
      intros Hin. apply Hni. now right. }
  cbn [length] in Hc, Hex.
  unfold tidy, slotted, allocate.
  destruct (Z.ltb_spec 1 (num_free_entries_ (self m))) as [Hgt|Hngt].
  - destruct fl as [|j fl]; [cbn [length] in Hc; lia|].
    assert (Hj : 0 <= j < max_entries_ (self m)) by (apply Hrng; right; left; reflexivity).
    assert (Hu : uint (num_free_entries_ (self m) - 1) = num_free_entries_ (self m) - 1)
      by (apply uint_small; unfold is_uint; lia).
    cbn [fst snd self mem max_entries_ entry_size_ num_free_entries_ pool_mem_ next_free_].
    rewrite Hu.
    split; [exact Hptr|]. split; [reflexivity|]. split; [reflexivity|]. split; [exact Hfresh|].
    split; [|split; [exact Hfit|split; [exact Hblk|cbn [length] in *; lia]]].
    split; [|split; [|split; [|split; [|split; [|split]]]]].
    + rewrite Hc. cbn [length]. lia.
    + now inversion Hnd.
    + intros k Hk. apply Hrng. now right.
    + apply linked_step in Hlk. destruct Hlk as [Hld _].
      cbn [headed] in *. rewrite Hhd, Hld. apply element_at_layout; reflexivity.
    + apply linked_step in Hlk. destruct Hlk as [_ Hlk].
      apply (linked_layout (self m)); [reflexivity..|exact Hlk].
    + now constructor.
    + exact Hlive'.
  - destruct (Z.eqb_spec (num_free_entries_ (self m)) 1) as [H1|H1]; [|lia].
    destruct fl as [|j fl]; [|cbn [length] in Hc; lia].
    cbn [fst snd self mem max_entries_ entry_size_ num_free_entries_ pool_mem_ next_free_
         length Z.of_nat headed linked].
    split; [exact Hptr|]. split; [now rewrite H1|]. split; [reflexivity|].
    split; [exact Hfresh|].
    split; [|split; [exact Hfit|split; [exact Hblk|cbn [length] in *; lia]]].
    split; [reflexivity|]. split; [constructor|]. split; [intros k Hk; contradiction|].
    split; [exact I|]. split; [exact I|]. split; [now constructor | exact Hlive'].
Qed.

Lemma tidy_deallocate_cons (m : machine) (live fl : list Z) (ptr : Z) :
  tidy m live fl ->
  In ptr live ->
  exists i,
    0 <= i < max_entries_ (self m) /\
    ptr = entry_address (self m) i /\
    ~ In i fl /\
    tidy (deallocate m ptr) (remove Z.eq_dec ptr live) (i :: fl).
Proof.
  intros (Hsl & Hfit & Hblk & Hex) Hin.
  pose proof Hsl as (Hc & Hnd & Hrng & Hhd & Hlk & Hndl & Hlv).
  pose proof Hfit as (Hw & He & Hn & Hp).
  pose proof (fits_is_uint _ _ Hfit) as [_ Hmax].
  destruct (Hlv _ Hin) as (i & Hi & Hptr & Hni).
  pose proof (NoDup_remove_length ptr live Hndl Hin) as Hlen.
  exists i. split; [exact Hi|]. split; [exact Hptr|]. split; [exact Hni|].
  unfold tidy, slotted, deallocate.
  cbn [self mem max_entries_ entry_size_ num_free_entries_ pool_mem_ next_free_].
  rewrite uint_small by (unfold is_uint; lia).
  split; [|split; [exact Hfit|split; [exact Hblk|lia]]].
  split; [|split; [|split; [|split; [|split; [|split]]]]].
  - rewrite Hc. cbn [length]. lia.
  - now constructor.
  - intros k [<-|Hk]; [exact Hi | now apply Hrng].
  - cbn [headed]. rewrite Hptr. symmetry.
    rewrite <- (element_at_fits (self m) i Hfit Hi).
    apply element_at_layout; reflexivity.
  - match goal with |- linked ?p' _ _ => apply (linked_layout (self m) p'); [reflexivity..|] end.
    cbn [linked]. split.
    + destruct fl as [|j fl]; [exact I|].
      assert (Hj : 0 <= j < max_entries_ (self m)) by (apply Hrng; left; reflexivity).
      cbn [headed] in Hhd. rewrite (element_at_fits _ _ Hfit Hj) in Hhd.
      rewrite (element_at_fits _ _ Hfit Hi), <- Hptr.
      rewrite load_uint_store_uint.
      * destruct (Z.eqb_spec (next_free_ (self m)) nullptr) as [E|E].
        -- unfold nullptr in *. nia.
        -- cbn [negb]. rewrite Hhd. now apply index_of_entry.
      * destruct (negb (next_free_ (self m) =? nullptr)); [apply uint_is_uint|].
        unfold is_uint. lia.
    + apply (linked_heap_ext (self m) (mem m)); [|exact Hlk].
      intros k Hk. apply load_uint_store_uint_apart.
      assert (0 <= k < max_entries_ (self m)) by now apply Hrng.
      assert (k <> i) by (intros ->; contradiction).
      rewrite (element_at_fits _ _ Hfit) by assumption. rewrite Hptr.
      destruct (Z.lt_total k i) as [Hki|[Hki|Hki]]; [left; nia | contradiction | right; nia].
  - now apply NoDup_remove_Z.
  - intros q Hq. apply in_remove in Hq. destruct Hq as [Hq Hne].
    destruct (Hlv _ Hq) as (i' & Hi' & E & Hni'). exists i'. repeat split; try assumption; try lia.
    intros [<-|Hin']; [|contradiction]. apply Hne. now rewrite E, Hptr.
Qed.

Lemma tidy_empty_allocate (m : machine) (live : list Z) :
  tidy m live [] -> allocate m = (nullptr, m).
Proof.
  intros ((Hc & _) & _). cbn [length Z.of_nat] in Hc. unfold allocate. now rewrite Hc.
Qed.

Lemma tidy_write (m : machine) (live fl : list Z) (ptr a b : Z) :
  tidy m live fl ->
  In ptr live ->
  ptr <= a < ptr + entry_size_ (self m) ->
  tidy {| self := self m; mem := poke (mem m) a b |} live fl.
Proof.
  intros (Hsl & Hfit & Hblk & Hex) Hin Ha.
  split; [|cbn [self]; split; [exact Hfit | split; [exact Hblk | exact Hex]]].
  now apply (slotted_write m live fl ptr).
Qed.

Lemma reachable_tidy (entry_size n : Z) (h0 : heap) (m : machine) (live : list Z) :
  fits entry_size n ->
  nullptr < block_of entry_size n ->
  reachable entry_size n h0 m live ->
  exists fl, tidy m live fl.
Proof.
  intros Hfit Hblk Hr.
  induction Hr as [|m live Hr IH|m live ptr Hr IH Hin|m live ptr a b Hr IH Hin Ha Hb].
  - eexists. now apply tidy_new.
  - destruct IH as [[|i fl] IH].
    + rewrite (tidy_empty_allocate m live IH). cbn [fst snd]. unfold hold.
      rewrite Z.eqb_refl. now exists [].
    + destruct (tidy_allocate_cons m live i fl IH) as (Hptr & _ & _ & _ & Ht).
      exists fl. unfold hold.
      destruct (Z.eqb_spec (fst (allocate m)) nullptr) as [E|E]; [|exact Ht].
      exfalso. destruct IH as ((_ & _ & Hrng & _) & (_ & He & _) & Hb & _).
      assert (0 <= i) by (apply Hrng; left; reflexivity).
      rewrite Hptr in E. unfold entry_address, nullptr in *. nia.
  - destruct IH as [fl IH].
    destruct (tidy_deallocate_cons m live fl ptr IH Hin) as (i & _ & _ & _ & Ht).
    now exists (i :: fl).
  - destruct IH as [fl IH]. exists fl. now apply (tidy_write m live fl ptr).
Qed.

Lemma entry_address_layout (p p' : MemoryPoolBase) (i : Z) :
  pool_mem_ p' = pool_mem_ p -> entry_size_ p' = entry_size_ p ->
  entry_address p' i = entry_address p i.
Proof. intros Hb He. unfold entry_address. now rewrite Hb, He. Qed.

Lemma fits_of_bounds (entry_size n : Z) :
  Z.of_nat UINT_SIZE <= entry_size -> 0 < entry_size -> 0 < n ->
  n * entry_size < UINT_MODULUS -> fits entry_size n.
Proof. intros. unfold fits. repeat split; lia. Qed.

Lemma allocate_n_tidy (k : nat) :
  forall fl m live,
    tidy m live fl ->
    (k <= length fl)%nat ->
    fst (allocate_n k m) = map (entry_address (self m)) (firstn k fl).
Proof.
  induction k as [|k IH]; intros fl m live Ht Hk; [reflexivity|].
  destruct fl as [|i fl]; [cbn [length] in Hk; lia|].
  destruct (tidy_allocate_cons m live i fl Ht) as (Hptr & Hself & _ & _ & Ht').
  cbn [allocate_n firstn map].
  destruct (allocate m) as [ptr m1] eqn:E. cbn [fst snd] in *.
  specialize (IH fl m1 (ptr :: live) Ht' ltac:(cbn [length] in Hk; lia)).
  destruct (allocate_n k m1) as [ptrs m2]. cbn [fst] in *.
  rewrite Hptr, IH. f_equal. apply map_ext. intros j.
  apply entry_address_layout; rewrite Hself; reflexivity.
Qed.

Lemma tidy_deallocate_all (ptrs : list Z) :
  forall m live fl,
    tidy m live fl ->
    NoDup ptrs ->
    incl ptrs live ->
    exists idx live',
      ptrs = map (entry_address (self m)) idx /\
      pool_mem_ (self (deallocate_all ptrs m)) = pool_mem_ (self m) /\
      entry_size_ (self (deallocate_all ptrs m)) = entry_size_ (self m) /\
      tidy (deallocate_all ptrs m) live' (rev idx ++ fl).
Proof.
  induction ptrs as [|ptr ptrs IH]; intros m live fl Ht Hnd Hincl.
  - exists [], live. split; [reflexivity|]. split; [reflexivity|]. split; [reflexivity|].
    exact Ht.
  - destruct (tidy_deallocate_cons m live fl ptr Ht) as (i & _ & Hptr & _ & Ht1);
      [apply Hincl; left; reflexivity|].
    apply NoDup_cons_iff in Hnd. destruct Hnd as [Hnotin Hnd'].
    destruct (IH (deallocate m ptr) (remove Z.eq_dec ptr live) (i :: fl) Ht1 Hnd')
      as (idx & live' & Hmap & Hb & He & Ht2).
    { intros q Hq. apply in_in_remove.
      - intros ->. contradiction.
      - apply Hincl. now right. }
    exists (i :: idx), live'. cbn [deallocate_all fold_left map rev].
    fold (deallocate_all ptrs (deallocate m ptr)).
    split; [|split; [exact Hb|split; [exact He|]]].
    + rewrite Hptr. f_equal. rewrite Hmap. apply map_ext. intros j.
      apply entry_address_layout; reflexivity.
    + rewrite <- app_assoc. exact Ht2.
Qed.

(** ** Claims on [deallocate]

    They are stated for the pools in which the assertion of [deallocate]
    is met by every pointer held, so that the call returns. *)

Lemma tidy_assert (m : machine) (live fl : list Z) (ptr : Z) :
  tidy m live fl ->
  In ptr live ->
  deallocate_assert (self m) ptr = true.
Proof.
  intros ((_ & _ & _ & _ & _ & _ & Hlv) & Hfit & Hblk & _) Hin.
  pose proof Hfit as (Hw & He & Hn & Hp).
  destruct (Hlv _ Hin) as (i & Hi & Hptr & _).
  unfold deallocate_assert. rewrite uint_small by (unfold is_uint; nia).
  apply andb_true_intro. split; [apply Z.leb_le | apply Z.ltb_lt]; nia.
Qed.

(** C2.  In a pool whose entries can hold a link, whose offsets fit in
    [uint_t] and whose block was obtained: in a reachable machine with a
    free entry, [allocate] returns a non-null [ptr]; the client may write
    what it likes; [deallocate ptr] follows with no other call in between,
    meets its assertion and returns; then the next [allocate] returns
    [ptr] again. *)
Theorem lifo_reuse (entry_size n : Z) (h0 : heap) (m : machine) (live : list Z) (h' : heap) :
  Z.of_nat UINT_SIZE <= entry_size -> 0 < entry_size -> 0 < n ->
  n * entry_size < UINT_MODULUS ->
  nullptr < block_of entry_size n ->
  reachable entry_size n h0 m live ->
  0 < num_free_entries_ (self m) ->
  let ptr := fst (allocate m) in
  let m1 := {| self := self (snd (allocate m)); mem := h' |} in
  ptr <> nullptr /\
  deallocate_checked m1 ptr = Some (deallocate m1 ptr) /\
  fst (allocate (deallocate m1 ptr)) = ptr.
Proof.
  intros Hw He Hn Hp Hblk Hr Hfree ptr m1.
  pose proof (fits_of_bounds _ _ Hw He Hn Hp) as Hfit.
  pose proof (fits_is_uint _ _ Hfit) as Hu.
  destruct (reachable_counted _ _ _ _ _ Hu Hr) as (Hmax & _ & _ & Hc0 & Hc1 & _).
  destruct (reachable_tidy _ _ _ _ _ Hfit Hblk Hr) as [fl Ht].
  destruct fl as [|i fl].
  { destruct Ht as ((Hc & _) & _). cbn [length] in Hc. lia. }
  destruct (tidy_allocate_cons m live i fl Ht) as (Hptr & _ & _ & _ & Ht1).
  fold ptr in Hptr, Ht1.
  assert (Hi : 0 <= i).
  { destruct Ht as ((_ & _ & Hrng & _) & _). apply Hrng. now left. }
  split; [|split].
  - rewrite Hptr. destruct Ht as (_ & (_ & He' & _) & Hb & _).
    unfold entry_address, nullptr in *. nia.
  - unfold deallocate_checked. cbn [m1 self].
    rewrite (tidy_assert _ _ _ ptr Ht1) by (left; reflexivity). reflexivity.
  - destruct Hu as [Hn0 Hn1].
    assert (Hdec : num_free_entries_ (self (snd (allocate m))) = num_free_entries_ (self m) - 1).
    { unfold allocate.
      destruct (Z.ltb_spec 1 (num_free_entries_ (self m))).
      - cbn [snd self num_free_entries_]. apply uint_small. unfold is_uint. lia.
      - destruct (Z.eqb_spec (num_free_entries_ (self m)) 1); [|lia].
        cbn [snd self num_free_entries_]. lia. }
    unfold allocate at 1, deallocate.
    cbn [self mem num_free_entries_ next_free_ m1]. rewrite Hdec.
    replace (num_free_entries_ (self m) - 1 + 1) with (num_free_entries_ (self m)) by lia.
    rewrite uint_small by (unfold is_uint; lia).
    destruct (Z.ltb_spec 1 (num_free_entries_ (self m))); [reflexivity|].
    destruct (Z.eqb_spec (num_free_entries_ (self m)) 1); [reflexivity | lia].
Qed.

(** C4.  In a pool of capacity [n > 0] whose entries can hold a link,
    whose offsets fit in [uint_t] and whose block was obtained:
    [deallocate ptr] on a pointer the client holds meets its assertion and
    returns; [ptr] is the address of an entry [i], which becomes the free
    head; the first word at [ptr] then holds the sentinel [n] if no entry
    was free, and otherwise the index [j] of the entry that was the free
    head; and the free count grows by one. *)
Theorem deallocate_pushes (entry_size n : Z) (h0 : heap) (m : machine) (live : list Z) (ptr : Z) :
  Z.of_nat UINT_SIZE <= entry_size -> 0 < entry_size -> 0 < n ->
  n * entry_size < UINT_MODULUS ->
  nullptr < block_of entry_size n ->
  reachable entry_size n h0 m live ->
  In ptr live ->
  let m' := deallocate m ptr in
  let block := block_of entry_size n in
  deallocate_checked m ptr = Some m' /\
  (exists i, 0 <= i < n /\ ptr = block + i * entry_size /\
             next_free_ (self m') = block + i * entry_size /\
             index_of (self m') (next_free_ (self m')) = i) /\
  (num_free_entries_ (self m) = 0 -> load_uint (mem m') ptr = n) /\
  (0 < num_free_entries_ (self m) ->
   exists j, 0 <= j < n /\
             next_free_ (self m) = block + j * entry_size /\
             load_uint (mem m') ptr = j) /\
  num_free_entries_ (self m') = num_free_entries_ (self m) + 1.
Proof.
  intros Hw He Hn Hp Hblk Hr Hin m' block.
  pose proof (fits_of_bounds _ _ Hw He Hn Hp) as Hfit.
  pose proof (fits_is_uint _ _ Hfit) as Hu.
  pose proof (reachable_counted _ _ _ _ _ Hu Hr) as Hcnt.
  destruct (counted_deallocate _ _ _ _ _ Hu Hcnt Hin) as [_ Hinc].
  destruct Hcnt as (Hmax & Hes & Hb & Hc0 & _ & _ & _ & Hnull).
  destruct (reachable_tidy _ _ _ _ _ Hfit Hblk Hr) as [fl Ht].
  destruct (tidy_deallocate_cons m live fl ptr Ht Hin) as (i & Hi & Hptr & _ & Ht').
  fold m' in Ht', Hinc.
  unfold entry_address in Hptr. rewrite Hmax in Hi. rewrite Hb, Hes in Hptr. fold block in Hptr.
  assert (Hfields : max_entries_ (self m') = n /\ entry_size_ (self m') = entry_size /\
                    pool_mem_ (self m') = block /\ next_free_ (self m') = ptr).
  { unfold m', deallocate. cbn [self max_entries_ entry_size_ pool_mem_ next_free_].
    now repeat split. }
  destruct Hfields as (Hmax' & Hes' & Hb' & Hnf').
  split; [|split; [|split; [|split]]].
  - unfold deallocate_checked. now rewrite (tidy_assert m live fl ptr Ht Hin).
  - exists i. split; [exact Hi|]. split; [exact Hptr|]. split; [now rewrite Hnf'|].
    rewrite Hnf', Hptr, <- Hb', <- Hes'. apply index_of_entry; [apply Ht' | now rewrite Hmax'].
  - intros E. unfold m', deallocate. cbn [mem].
    rewrite (Hnull Hn E), Z.eqb_refl. cbn [negb].
    rewrite load_uint_store_uint; [exact Hmax | rewrite Hmax; exact Hu].
  - intros Hfree. destruct fl as [|j fl].
    { destruct Ht as ((Hc & _) & _). cbn [length] in Hc. lia. }
    destruct Ht as ((_ & _ & Hrng & Hhd & _) & Hfit' & _).
    assert (Hj : 0 <= j < max_entries_ (self m)) by (apply Hrng; now left).
    exists j. split; [now rewrite <- Hmax|]. split.
    + cbn [headed] in Hhd. rewrite Hhd, (element_at_fits _ _ Hfit' Hj).
      unfold block. now rewrite Hb, Hes.
    + destruct Ht' as ((_ & _ & _ & _ & Hlk & _) & Hfit'' & _).
      apply linked_step in Hlk. destruct Hlk as [Hld _].
      rewrite element_at_fits in Hld; [|exact Hfit''|rewrite Hmax'; exact Hi].
      rewrite Hb', Hes', <- Hptr in Hld. exact Hld.
  - exact Hinc.
Qed.

(** C9.  In a pool of capacity [n > 0] whose entries can hold a link,
    whose offsets fit in [uint_t] and whose block was obtained, in every
    reachable machine: the free count is zero exactly when the free head is
    null; [allocate] of the last free entry leaves a null free head and the
    same object whatever the heap holds; and [deallocate] with no free
    entry, on a pointer held, meets its assertion, returns, and leaves a
    non-null free head whose first word is the sentinel [n]. *)
Theorem free_head_null_iff (entry_size n : Z) (h0 : heap) (m : machine) (live : list Z) :
  Z.of_nat UINT_SIZE <= entry_size -> 0 < entry_size -> 0 < n ->
  n * entry_size < UINT_MODULUS ->
  nullptr < block_of entry_size n ->
  reachable entry_size n h0 m live ->
  (num_free_entries_ (self m) = 0 <-> next_free_ (self m) = nullptr) /\
  (num_free_entries_ (self m) = 1 ->
     next_free_ (self (snd (allocate m))) = nullptr /\
     num_free_entries_ (self (snd (allocate m))) = 0 /\
     forall h, fst (allocate {| self := self m; mem := h |}) = fst (allocate m) /\
               self (snd (allocate {| self := self m; mem := h |})) = self (snd (allocate m))) /\
  (num_free_entries_ (self m) = 0 ->
     forall ptr, In ptr live ->
       deallocate_checked m ptr = Some (deallocate m ptr) /\
       next_free_ (self (deallocate m ptr)) = ptr /\
       next_free_ (self (deallocate m ptr)) <> nullptr /\
       load_uint (mem (deallocate m ptr)) (next_free_ (self (deallocate m ptr))) = n).
Proof.
  intros Hw He Hpos Hp Hblk Hr.
  pose proof (fits_of_bounds _ _ Hw He Hpos Hp) as Hfit.
  pose proof (fits_is_uint _ _ Hfit) as Hn.
  destruct (reachable_counted _ _ _ _ _ Hn Hr) as (Hmax & _ & Hb & Hc0 & _ & Hlive & Hhead & Hnull).
  destruct (reachable_tidy _ _ _ _ _ Hfit Hblk Hr) as [fl Ht].
  rewrite <- Hb in Hblk. split; [|split].
  - split; [now apply Hnull|].
    intros E. specialize (Hhead Hblk). unfold nullptr in *. lia.
  - intros H1. unfold allocate. cbn [self mem]. rewrite H1.
    cbn [Z.ltb Z.compare Pos.compare Pos.compare_cont Z.eqb Pos.eqb snd fst self
         next_free_ num_free_entries_].
    repeat split.
  - intros H0 ptr Hin. split; [|split; [|split]].
    + unfold deallocate_checked. now rewrite (tidy_assert m live fl ptr Ht Hin).
    + reflexivity.
    + unfold deallocate. cbn [self next_free_]. now apply Hlive.
    + unfold deallocate. cbn [self mem next_free_].
      rewrite (Hnull Hpos H0), Z.eqb_refl. cbn [negb].
      rewrite load_uint_store_uint; [exact Hmax | rewrite Hmax; exact Hn].
Qed.

(** X3.  In a pool whose entries can hold a link, whose offsets fit in
    [uint_t] and whose block was obtained, every entry is either free or
    held in every reachable machine: [get_stats] reports exactly the number
    of pointers held, the destructor's assertion holds exactly when none is
    held, and [allocate] returns null exactly when all [n] are held. *)
Theorem held_count_exact (entry_size n : Z) (h0 : heap) (m : machine) (live : list Z) :
  Z.of_nat UINT_SIZE <= entry_size -> 0 < entry_size -> 0 < n ->
  n * entry_size < UINT_MODULUS ->
  nullptr < block_of entry_size n ->
  reachable entry_size n h0 m live ->
  num_free_entries_ (self m) + Z.of_nat (length live) = n /\
  allocation_count (get_stats (self m)) = Z.of_nat (length live) /\
  (destructor_assert (self m) = true <-> live = []) /\
  (fst (allocate m) = nullptr <-> Z.of_nat (length live) = n).
Proof.
  intros Hw He Hn Hp Hblk Hr.
  pose proof (fits_of_bounds _ _ Hw He Hn Hp) as Hfit.
  pose proof (fits_is_uint _ _ Hfit) as Hu.
  destruct (reachable_counted _ _ _ _ _ Hu Hr) as (Hmax & _ & Hb & Hc0 & _ & _ & Hhead & _).
  destruct (reachable_tidy _ _ _ _ _ Hfit Hblk Hr) as (fl & _ & _ & _ & Hex).
  rewrite Hmax in *. rewrite <- Hb in Hblk. destruct Hu as [_ Hu].
  split; [exact Hex|]. split; [|split].
  - unfold get_stats. cbn [allocation_count]. rewrite Hmax.
    rewrite uint_small by (unfold is_uint; lia). lia.
  - unfold destructor_assert. rewrite Hmax, Z.eqb_eq. split.
    + intros E. destruct live; [reflexivity|cbn [length] in Hex; lia].
    + intros ->. cbn [length] in Hex. lia.
  - unfold allocate. specialize (Hhead Hblk). unfold nullptr in *.
    destruct (Z.ltb_spec 1 (num_free_entries_ (self m))); cbn [fst]; [lia|].
    destruct (Z.eqb_spec (num_free_entries_ (self m)) 1); cbn [fst]; [lia|].
    split; [lia | reflexivity].
Qed.

(** X4.  A fresh pool hands out its entries in index order: the [n]
    calls of [allocate] after construction return [block],
    [block + entry_size], ... , [block + (n-1) * entry_size]. *)
Theorem fresh_pool_order (entry_size n : Z) (h0 : heap) :
  Z.of_nat UINT_SIZE <= entry_size -> 0 < entry_size -> 0 < n ->
  n * entry_size < UINT_MODULUS ->
  nullptr < block_of entry_size n ->
  fst (allocate_n (Z.to_nat n) (MemoryPoolBase_new entry_size n h0)) =
  map (fun i => block_of entry_size n + i * entry_size) (indices 0 (Z.to_nat n)).
Proof.
  intros Hw He Hn Hp Hblk.
  pose proof (fits_of_bounds _ _ Hw He Hn Hp) as Hfit.
  rewrite (allocate_n_tidy (Z.to_nat n) (indices 0 (Z.to_nat n))
             (MemoryPoolBase_new entry_size n h0) []).
  - rewrite firstn_all2 by (rewrite indices_length; lia). reflexivity.
  - now apply tidy_new.
  - rewrite indices_length. lia.
Qed.

(** X5.  The free list is a stack: after [deallocate] of distinct held
    pointers [ptrs], first to last, the next [length ptrs] calls of
    [allocate] return them last to first. *)
Theorem lifo_order (entry_size n : Z) (h0 : heap) (m : machine) (live ptrs : list Z) :
  Z.of_nat UINT_SIZE <= entry_size -> 0 < entry_size -> 0 < n ->
  n * entry_size < UINT_MODULUS ->
  nullptr < block_of entry_size n ->
  reachable entry_size n h0 m live ->
  NoDup ptrs ->
  incl ptrs live ->
  fst (allocate_n (length ptrs) (deallocate_all ptrs m)) = rev ptrs.
Proof.
  intros Hw He Hn Hp Hblk Hr Hnd Hincl.
  pose proof (fits_of_bounds _ _ Hw He Hn Hp) as Hfit.
  destruct (reachable_tidy _ _ _ _ _ Hfit Hblk Hr) as [fl Ht].
  destruct (tidy_deallocate_all ptrs m live fl Ht Hnd Hincl)
    as (idx & live' & Hmap & Hb & Hes & Ht').
  assert (Hlen : length ptrs = length (rev idx))
    by (rewrite Hmap, length_map, length_rev; reflexivity).
  rewrite (allocate_n_tidy _ _ _ _ Ht') by (rewrite length_app; lia).
  rewrite Hlen, firstn_app, Nat.sub_diag, firstn_O, app_nil_r, firstn_all.
  rewrite Hmap at 2. rewrite <- map_rev. apply map_ext. intros j.
  now apply entry_address_layout.
Qed.

(** X6.  [allocate] followed by [deallocate] of its result undoes the
    call: the object is what it was, and the same entries are free in the
    same order with the same pointers held. *)
Theorem allocate_deallocate_undo (entry_size n : Z) (h0 : heap) (m : machine) (live : list Z) :
  Z.of_nat UINT_SIZE <= entry_size -> 0 < entry_size -> 0 < n ->
  n * entry_size < UINT_MODULUS ->
  nullptr < block_of entry_size n ->
  reachable entry_size n h0 m live ->
  0 < num_free_entries_ (self m) ->
  let m' := deallocate (snd (allocate m)) (fst (allocate m)) in
  self m' = self m /\
  exists fl, slotted m live fl /\ slotted m' live fl.
Proof.
  intros Hw He Hn Hp Hblk Hr Hfree m'.
  pose proof (fits_of_bounds _ _ Hw He Hn Hp) as Hfit.
  destruct (reachable_tidy _ _ _ _ _ Hfit Hblk Hr) as [fl Ht].
  destruct fl as [|i fl].
  { destruct Ht as ((Hc & _) & _). cbn [length] in Hc. lia. }
  destruct (tidy_allocate_cons m live i fl Ht) as (Hptr & Hself & _ & Hfresh & Ht1).
  destruct (tidy_deallocate_cons _ _ _ (fst (allocate m)) Ht1) as (j & Hj & Hptr' & _ & Ht2);
    [left; reflexivity|].
  assert (Hhd : next_free_ (self m) = fst (allocate m)).
  { destruct Ht as ((_ & _ & Hrng & Hhd & _) & Hfit' & _). cbn [headed] in Hhd.
    rewrite Hhd, Hptr. apply element_at_fits; [exact Hfit'|]. apply Hrng. now left. }
  assert (Hij : j = i).
  { rewrite Hptr in Hptr'. unfold entry_address in Hptr'. rewrite Hself in Hptr'.
    cbn [pool_mem_ entry_size_] in Hptr'.
    destruct Ht as (_ & (_ & He' & _) & _). nia. }
  subst j. split.
  - subst m'. unfold deallocate. cbn [self]. rewrite Hself.
    cbn [max_entries_ entry_size_ num_free_entries_ pool_mem_].
    replace (num_free_entries_ (self m) - 1 + 1) with (num_free_entries_ (self m)) by lia.
    rewrite uint_small, <- Hhd.
    + now destruct (self m).
    + pose proof (fits_is_uint _ _ Hfit) as [_ Hu].
      destruct Ht as ((Hc & _) & _ & _ & Hex). unfold is_uint.
      destruct (reachable_counted _ _ _ _ _ (fits_is_uint _ _ Hfit) Hr) as (Hmax & _).
      lia.
  - exists (i :: fl). split; [apply Ht|].
    cbn [remove] in Ht2. destruct (Z.eq_dec (fst (allocate m)) (fst (allocate m))); [|congruence].
    rewrite notin_remove in Ht2 by exact Hfresh. apply Ht2.
Qed.

(** X7.  The bytes of a held entry survive calls on other entries:
    [allocate] leaves the heap as it is, and [deallocate] of another held
    pointer changes bytes of the entry it frees only. *)
Theorem held_contents_preserved (entry_size n : Z) (h0 : heap) (m : machine)
    (live : list Z) (ptr q a : Z) :
  Z.of_nat UINT_SIZE <= entry_size -> 0 < entry_size -> 0 < n ->
  n * entry_size < UINT_MODULUS ->
  nullptr < block_of entry_size n ->
  reachable entry_size n h0 m live ->
  In ptr live -> In q live -> q <> ptr ->
  q <= a < q + entry_size ->
  mem (deallocate m ptr) a = mem m a /\
  mem (snd (allocate m)) a = mem m a /\
  (forall x, x < ptr \/ ptr + entry_size <= x -> mem (deallocate m ptr) x = mem m x).
Proof.
  intros Hw He Hn Hp Hblk Hr Hin Hq Hne Ha.
  pose proof (fits_of_bounds _ _ Hw He Hn Hp) as Hfit.
  destruct (reachable_counted _ _ _ _ _ (fits_is_uint _ _ Hfit) Hr) as (Hmax & Hes & _).
  destruct (reachable_slotted _ _ _ _ _ Hfit Hblk Hr) as (fl & _ & _ & _ & _ & _ & _ & Hlv).
  assert (Hframe : forall x, x < ptr \/ ptr + entry_size <= x ->
            mem (deallocate m ptr) x = mem m x).
  { intros x Hx. unfold deallocate. cbn [mem]. unfold store_uint.
    apply store_le_outside. lia. }
  split; [|split; [|exact Hframe]].
  - apply Hframe.
    destruct (Hlv _ Hin) as (i & _ & Ei & _). destruct (Hlv _ Hq) as (j & _ & Ej & _).
    rewrite Hes in *. assert (i <> j) by (intros ->; congruence).
    destruct (Z.lt_total i j) as [Hij|[Hij|Hij]]; [right; nia | contradiction | left; nia].
  - unfold allocate.
    destruct (1 <? num_free_entries_ (self m)); [reflexivity|].
    destruct (num_free_entries_ (self m) =? 1); reflexivity.
Qed.

Lemma init_free_list_outside (fuel : nat) :
  forall p i h a,
    fits (entry_size_ p) (max_entries_ p) ->
    0 <= i ->
    a < pool_mem_ p \/ pool_mem_ p + max_entries_ p * entry_size_ p <= a ->
    init_free_list fuel p i h a = h a.
Proof.
  induction fuel as [|fuel IH]; intros p i h a Hfit Hi Ha; [reflexivity|].
  cbn [init_free_list]. destruct (Z.ltb_spec i (max_entries_ p)) as [Hlt|Hge]; [|reflexivity].
  rewrite IH; try assumption.
  - unfold store_uint. apply store_le_outside.
    rewrite element_at_fits by (assumption || lia).
    destruct Hfit as (Hw & He & Hn & Hp). nia.
  - apply uint_is_uint.
Qed.

(** X8.  The constructor of a pool whose entries can hold a link writes
    inside the block only: every byte outside
    [[block, block + n * entry_size)] is what it was. *)
Theorem constructor_frame (entry_size n : Z) (h0 : heap) (a : Z) :
  Z.of_nat UINT_SIZE <= entry_size -> 0 < entry_size -> 0 < n ->
  n * entry_size < UINT_MODULUS ->
  a < block_of entry_size n \/ block_of entry_size n + n * entry_size <= a ->
  mem (MemoryPoolBase_new entry_size n h0) a = h0 a.
Proof.
  intros Hw He Hn Hp Ha.
  pose proof (fits_of_bounds _ _ Hw He Hn Hp) as Hfit.
  unfold MemoryPoolBase_new. cbn [mem].
  apply init_free_list_outside; cbn [max_entries_ entry_size_ pool_mem_];
    [exact Hfit | lia | exact Ha].
Qed.

(** X9.  [index_of] undoes [element_at] on every address inside an entry,
    and the entries lie side by side inside the block: for [i < n] and an
    offset [d] below the entry size, [index_of (element_at i + d) = i];
    entry [i] ends where entry [i + 1] begins, and the last one ends with
    the block. *)
Theorem index_of_element_at (p : MemoryPoolBase) (i d : Z) :
  Z.of_nat UINT_SIZE <= entry_size_ p -> 0 < entry_size_ p ->
  max_entries_ p * entry_size_ p < UINT_MODULUS ->
  0 <= i < max_entries_ p ->
  0 <= d < entry_size_ p ->
  index_of p (element_at p i + d) = i /\
  pool_mem_ p <= element_at p i /\
  element_at p i + entry_size_ p <= pool_mem_ p + max_entries_ p * entry_size_ p /\
  (i + 1 < max_entries_ p -> element_at p (i + 1) = element_at p i + entry_size_ p).
Proof.
  intros Hw He Hp Hi Hd.
  assert (Hfit : fits (entry_size_ p) (max_entries_ p)) by (unfold fits; repeat split; lia).
  rewrite (element_at_fits p i Hfit Hi). split; [|split; [|split]].
  - unfold index_of.
    replace (pool_mem_ p + i * entry_size_ p + d - pool_mem_ p)
      with (d + i * entry_size_ p) by lia.
    rewrite Z.quot_div_nonneg by nia.
    rewrite Z.div_add, Z.div_small by lia.
    apply uint_small. unfold is_uint. nia.
  - nia.
  - nia.
  - intros Hi1. rewrite (element_at_fits p (i + 1) Hfit) by lia. lia.
Qed.

(** X10.  [is_aligned] decides divisibility by a power of two. *)
Theorem is_aligned_power_of_two (ptr : Z) (k : nat) :
  is_aligned ptr (2 ^ Z.of_nat k) = true <-> ptr mod 2 ^ Z.of_nat k = 0.
Proof.
  unfold is_aligned. rewrite Z.sub_1_r, <- Z.ones_equiv.
  rewrite Z.land_ones by lia. apply Z.eqb_eq.
Qed.

(** X11.  Every entry of a pool whose block is aligned to
    [MIN_BLOCK_ALIGN] is aligned to each power of two up to 64 that divides
    the entry size. *)
Theorem entry_alignment (p : MemoryPoolBase) (i : Z) (k : nat) :
  Z.of_nat UINT_SIZE <= entry_size_ p -> 0 < entry_size_ p ->
  max_entries_ p * entry_size_ p < UINT_MODULUS ->
  0 <= i < max_entries_ p ->
  is_aligned (pool_mem_ p) MIN_BLOCK_ALIGN = true ->
  (k <= 6)%nat ->
  (2 ^ Z.of_nat k | entry_size_ p) ->
  is_aligned (element_at p i) (2 ^ Z.of_nat k) = true.
Proof.
  intros Hw He Hp Hi Hal Hk Hdiv.
  assert (Hfit : fits (entry_size_ p) (max_entries_ p)) by (unfold fits; repeat split; lia).
  rewrite (element_at_fits p i Hfit Hi).
  apply is_aligned_MIN_BLOCK_ALIGN in Hal.
  unfold is_aligned. rewrite Z.sub_1_r, <- Z.ones_equiv.
  rewrite Z.land_ones by lia. apply Z.eqb_eq.
  assert (Hpos : 0 < 2 ^ Z.of_nat k) by (apply Z.pow_pos_nonneg; lia).
  apply Z.mod_divide; [lia|]. apply Z.divide_add_r.
  - apply Z.divide_trans with 64.
    + exists (2 ^ (6 - Z.of_nat k)). rewrite <- Z.pow_add_r by lia.
      replace (6 - Z.of_nat k + Z.of_nat k) with 6 by lia. reflexivity.
    + apply Z.mod_divide; [lia | exact Hal].
  - now apply Z.divide_mul_r.
Qed.

(** X12.  A second [deallocate] of the same pointer is not caught by the
    assertion of [deallocate] and makes the entry its own successor on the
    free list: the next two calls of [allocate] both return it. *)
Theorem double_free_aliases (entry_size n : Z) (h0 : heap) (m : machine)
    (live : list Z) (ptr : Z) :
  Z.of_nat UINT_SIZE <= entry_size -> 0 < entry_size -> 0 < n ->
  n * entry_size < UINT_MODULUS ->
  n + 1 < UINT_MODULUS ->
  nullptr < block_of entry_size n ->
  reachable entry_size n h0 m live ->
  In ptr live ->
  let m1 := deallocate m ptr in
  let m2 := deallocate m1 ptr in
  deallocate_assert (self m1) ptr = true /\
  fst (allocate m2) = ptr /\
  fst (allocate (snd (allocate m2))) = ptr.
Proof.
  intros Hw He Hn Hp Hn1 Hblk Hr Hin m1 m2.
  pose proof (fits_of_bounds _ _ Hw He Hn Hp) as Hfit.
  destruct (reachable_tidy _ _ _ _ _ Hfit Hblk Hr) as [fl Ht].
  destruct (reachable_counted _ _ _ _ _ (fits_is_uint _ _ Hfit) Hr)
    as (Hmax & Hes & Hb & Hc0 & _).
  destruct (tidy_deallocate_cons m live fl ptr Ht Hin) as (i & Hi & Hptr & _ & Ht1).
  fold m1 in Ht1.
  destruct Ht1 as ((Hc1 & _) & Hfit1 & Hblk1 & Hex1).
  assert (Hs1 : max_entries_ (self m1) = n /\ entry_size_ (self m1) = entry_size /\
                pool_mem_ (self m1) = pool_mem_ (self m) /\ next_free_ (self m1) = ptr /\
                num_free_entries_ (self m1) = num_free_entries_ (self m) + 1).
  { unfold m1, deallocate.
    cbn [self max_entries_ entry_size_ pool_mem_ next_free_ num_free_entries_].
    repeat split; try assumption.
    apply uint_small. unfold is_uint.
    destruct Ht as (_ & _ & _ & Hex). rewrite Hmax in Hex.
    destruct live; [contradiction|]. cbn [length] in Hex. lia. }
  destruct Hs1 as (Hmax1 & Hes1 & Hb1 & Hnf1 & Hcnt1).
  assert (Hle1 : num_free_entries_ (self m1) <= n).
  { rewrite Hmax1 in Hex1. lia. }
  assert (Hptr1 : ptr = pool_mem_ (self m1) + i * entry_size_ (self m1)).
  { rewrite Hb1, Hes1, <- Hes. exact Hptr. }
  rewrite Hmax in Hi. unfold entry_address in Hptr.
  split; [|split].
  - unfold deallocate_assert. rewrite Hmax1, Hes1, Hptr1, Hes1.
    rewrite uint_small by (unfold is_uint; nia).
    apply andb_true_intro. split; [apply Z.leb_le | apply Z.ltb_lt]; nia.
  - unfold m2, deallocate, allocate.
    cbn [self mem max_entries_ entry_size_ pool_mem_ next_free_ num_free_entries_].
    rewrite uint_small by (unfold is_uint; lia).
    destruct (Z.ltb_spec 1 (num_free_entries_ (self m1) + 1)); [reflexivity | lia].
  - assert (Hnz : (next_free_ (self m1) =? nullptr) = false).
    { apply Z.eqb_neq. rewrite Hnf1, Hptr1. unfold nullptr in *. nia. }
    assert (Hidx : index_of (self m1) ptr = i).
    { rewrite Hptr1. apply index_of_entry; [exact Hfit1 | rewrite Hmax1; exact Hi]. }
    unfold m2, deallocate, allocate.
    cbn [self mem max_entries_ entry_size_ pool_mem_ next_free_ num_free_entries_].
    rewrite Hnz. cbn [negb]. rewrite Hnf1, Hidx.
    rewrite (uint_small (num_free_entries_ (self m1) + 1)) by (unfold is_uint; lia).
    destruct (Z.ltb_spec 1 (num_free_entries_ (self m1) + 1)); [|lia].
    cbn [fst snd self mem max_entries_ entry_size_ pool_mem_ next_free_ num_free_entries_].
    replace (num_free_entries_ (self m1) + 1 - 1) with (num_free_entries_ (self m1)) by lia.
    rewrite uint_small by (unfold is_uint; lia).
    rewrite load_uint_store_uint by (unfold is_uint; lia).
    assert (Hel : element_at (self m1) i = ptr).
    { rewrite element_at_fits; [symmetry; exact Hptr1 | exact Hfit1 | rewrite Hmax1; exact Hi]. }
    destruct (Z.ltb_spec 1 (num_free_entries_ (self m1))); [exact Hel|].
    destruct (Z.eqb_spec (num_free_entries_ (self m1)) 1); [exact Hel | lia].
Qed.

Lemma store_le_byte (k : nat) :
  forall h a v d,
    0 <= d < Z.of_nat k ->
    store_le k h a v (a + d) = (v / 256 ^ d) mod 256.
Proof.
  induction k as [|k IH]; intros h a v d Hd; [lia|].
  cbn [store_le]. destruct (Z.eq_dec d 0) as [->|Hne].
  - rewrite store_le_outside by lia. rewrite Z.add_0_r, poke_same.
    now rewrite Z.pow_0_r, Z.div_1_r.
  - replace (a + d) with (a + 1 + (d - 1)) by lia. rewrite IH by lia.
    rewrite Z.div_div by (try apply Z.pow_pos_nonneg; lia).
    rewrite <- Z.pow_succ_r by lia. do 3 f_equal. lia.
Qed.

Lemma init_free_list_last (fuel : nat) :
  forall p i h,
    is_uint (max_entries_ p) ->
    0 <= i < max_entries_ p ->
    max_entries_ p - i <= Z.of_nat fuel ->
    exists h', init_free_list fuel p i h =
               store_uint h' (element_at p (max_entries_ p - 1)) (max_entries_ p).
Proof.
  induction fuel as [|fuel IH]; intros p i h Hu Hi Hfuel; [lia|].
  cbn [init_free_list]. destruct (Z.ltb_spec i (max_entries_ p)) as [Hlt|Hge]; [|lia].
  assert (Hs : uint (i + 1) = i + 1) by (apply uint_small; unfold is_uint in *; lia).
  rewrite Hs. destruct (Z.eq_dec (i + 1) (max_entries_ p)) as [E|E].
  - exists h. replace (max_entries_ p - 1) with i by lia. rewrite <- E.
    destruct fuel as [|fuel]; [reflexivity|]. cbn [init_free_list].
    destruct (Z.ltb_spec (i + 1) (max_entries_ p)); [lia | reflexivity].
  - apply IH; [exact Hu | lia | lia].
Qed.

(** X13.  The constructor writes the last link as a whole [uint_t] at the
    last entry whatever the entry size: byte [d] of that word holds byte
    [d] of [n].  With an entry smaller than [sizeof(uint_t)] the bytes
    [d >= entry_size] of it lie past the end of the block. *)
Theorem constructor_last_link (entry_size n : Z) (h0 : heap) (d : Z) :
  0 < entry_size -> 0 < n ->
  n * entry_size < UINT_MODULUS ->
  0 <= d < Z.of_nat UINT_SIZE ->
  let block := block_of entry_size n in
  mem (MemoryPoolBase_new entry_size n h0) (block + (n - 1) * entry_size + d) =
    (n / 256 ^ d) mod 256 /\
  (entry_size <= d -> block + n * entry_size <= block + (n - 1) * entry_size + d).
Proof.
  intros He Hn Hp Hd block. split; [|lia].
  assert (Hu : is_uint n) by (unfold is_uint; nia).
  unfold MemoryPoolBase_new. cbn [mem]. fold (block_of entry_size n). fold block.
  set (p := {| max_entries_ := n; entry_size_ := entry_size; num_free_entries_ := n;
               pool_mem_ := block; next_free_ := block |}).
  destruct (init_free_list_last (Z.to_nat n) p 0 h0) as [h' ->];
    cbn [p max_entries_]; [exact Hu | lia | lia |].
  assert (Hel : element_at p (n - 1) = block + (n - 1) * entry_size).
  { unfold element_at. cbn [p pool_mem_ entry_size_]. rewrite uint_small; [reflexivity|].
    unfold is_uint. nia. }
  rewrite Hel. unfold store_uint. now apply store_le_byte.
Qed.

End MemoryPool.

(** ** Worked instances

    [uint_t] of four bytes, the block at address 64, a heap of zeros. *)

Lemma capacity_bound_witness :
  let run := allocate_n 4 (Z.to_nat 3) (MemoryPoolBase_new 4 memalign_at_64 4 3 zero_heap) in
  length (fst run) = Z.to_nat 3 /\
  Forall (fun ptr => ptr <> nullptr) (fst run) /\
  fst (allocate 4 (snd run)) = nullptr /\
  allocation_count (get_stats 4 (self (snd run))) = 3.
Proof.
  apply (capacity_bound 4 memalign_at_64 4 3 zero_heap).
  - unfold is_uint, UINT_MODULUS. simpl. lia.
  - lia.
  - vm_compute. reflexivity.
Defined.

Lemma allocate_exhausted_witness :
  let m0 := MemoryPoolBase_new 4 memalign_at_64 4 1 zero_heap in
  let m := snd (allocate 4 m0) in
  (num_free_entries_ (self m) = 0 -> allocate 4 m = (nullptr, m)) /\
  (fst (allocate 4 m) = nullptr -> num_free_entries_ (self m) = 0).
Proof.
  apply (allocate_exhausted 4 memalign_at_64 4 1 zero_heap
           (snd (allocate 4 (MemoryPoolBase_new 4 memalign_at_64 4 1 zero_heap)))
           (hold (fst (allocate 4 (MemoryPoolBase_new 4 memalign_at_64 4 1 zero_heap))) [])).
  - unfold is_uint, UINT_MODULUS. simpl. lia.
  - vm_compute. reflexivity.
  - apply reach_allocate, reach_new.
Defined.

Lemma conservation_witness :
  let m0 := MemoryPoolBase_new 4 memalign_at_64 4 2 zero_heap in
  let m := snd (allocate 4 m0) in
  0 <= num_free_entries_ (self m) <= 2 /\
  allocation_count (get_stats 4 (self m)) + num_free_entries_ (self m) = 2.
Proof.
  apply (conservation 4 memalign_at_64 4 2 zero_heap
           (snd (allocate 4 (MemoryPoolBase_new 4 memalign_at_64 4 2 zero_heap)))
           (hold (fst (allocate 4 (MemoryPoolBase_new 4 memalign_at_64 4 2 zero_heap))) [])).
  - unfold is_uint, UINT_MODULUS. simpl. lia.
  - apply reach_allocate, reach_new.
Defined.

Lemma zero_capacity_witness :
  let m := MemoryPoolBase_new 4 memalign_at_64 4 0 zero_heap in
  m = MemoryPoolBase_new 4 memalign_at_64 4 0 zero_heap /\
  mem m = zero_heap /\
  @nil Z = [] /\
  num_free_entries_ (self m) = 0 /\
  allocate 4 m = (nullptr, m) /\
  allocation_count (get_stats 4 (self m)) = 0 /\
  destructor_assert (self m) = true.
Proof.
  apply (zero_capacity 4 memalign_at_64 4 zero_heap). apply reach_new.
Defined.

Lemma construction_ignores_failure_witness :
  block_of 4 memalign_enomem 4 1 = nullptr /\
  self (MemoryPoolBase_new 4 memalign_enomem 4 1 zero_heap) =
    {| max_entries_ := 1; entry_size_ := 4; num_free_entries_ := 1;
       pool_mem_ := nullptr; next_free_ := nullptr |}.
Proof.
  apply (construction_ignores_failure 4 memalign_enomem 4 1 zero_heap).
  simpl. lia.
Defined.

Lemma constructor_chain_witness :
  let m := MemoryPoolBase_new 4 memalign_at_64 4 3 zero_heap in
  num_free_entries_ (self m) = 3 /\
  next_free_ (self m) = element_at 4 (self m) 0 /\
  (forall i, 0 <= i < 3 -> load_uint 4 (mem m) (element_at 4 (self m) i) = i + 1) /\
  load_uint 4 (mem m) (element_at 4 (self m) (3 - 1)) = 3 /\
  linked 4 (self m) (mem m) (indices 0 (Z.to_nat 3)).
Proof.
  apply (constructor_chain 4 memalign_at_64 4 3 zero_heap).
  - simpl. lia.
  - lia.
  - lia.
  - unfold UINT_MODULUS. simpl. lia.
Defined.

Lemma allocate_address_witness :
  let m0 := MemoryPoolBase_new 4 memalign_at_64 64 2 zero_heap in
  let m := snd (allocate 4 m0) in
  let live := hold (fst (allocate 4 m0)) [] in
  let ptr := fst (allocate 4 m) in
  let block := block_of 4 memalign_at_64 64 2 in
  (exists i, 0 <= i < 2 /\ ptr = block + i * 64) /\
  (block <= ptr /\ ptr + 64 <= block + 2 * 64) /\
  ~ In ptr live /\
  NoDup live /\
  (is_aligned block MIN_BLOCK_ALIGN = true -> (MIN_BLOCK_ALIGN | 64) ->
   is_aligned ptr MIN_BLOCK_ALIGN = true).
Proof.
  apply (allocate_address 4 memalign_at_64 64 2 zero_heap
           (snd (allocate 4 (MemoryPoolBase_new 4 memalign_at_64 64 2 zero_heap)))
           (hold (fst (allocate 4 (MemoryPoolBase_new 4 memalign_at_64 64 2 zero_heap))) [])).
  - simpl. lia.
  - lia.
  - lia.
  - unfold UINT_MODULUS. simpl. lia.
  - vm_compute. reflexivity.
  - apply reach_allocate, reach_new.
  - vm_compute. lia.
Defined.

(** ** Where the claims as written fail *)

(** C5 as written fails for an entry smaller than [uint_t]: with
    one-byte entries and a four-byte [uint_t] the link written into entry
    [1] overlaps the link of entry [0], which then reads [513], not [1]. *)
Lemma constructor_chain_small_entry :
  let m := MemoryPoolBase_new 4 memalign_at_64 1 2 zero_heap in
  (0 < entry_size_ (self m) /\ 0 < max_entries_ (self m)) /\
  load_uint 4 (mem m) (element_at 4 (self m) 0) = 513 /\
  ~ (forall i, 0 <= i < 2 -> load_uint 4 (mem m) (element_at 4 (self m) i) = i + 1).
Proof.
  split; [split; reflexivity|]. split; [reflexivity|].
  intros H. specialize (H 0 ltac:(lia)). vm_compute in H. discriminate H.
Qed.

(** The same failure by overflow, with entries large enough for a link:
    three entries of [2^31] bytes and a four-byte [uint_t] put entry [2] at
    offset [0], on top of entry [0], which then reads [3]. *)
Lemma constructor_chain_overflow :
  let m := MemoryPoolBase_new 4 memalign_at_64 2147483648 3 zero_heap in
  element_at 4 (self m) 2 = element_at 4 (self m) 0 /\
  load_uint 4 (mem m) (element_at 4 (self m) 0) = 3.
Proof. split; reflexivity. Qed.

(** C7 as written fails on alignment: in a pool of four-byte entries
    whose block is aligned to [MIN_BLOCK_ALIGN], the second pointer
    returned is [block + 4], inside the block and not aligned to 64. *)
Lemma allocate_address_unaligned :
  let m0 := MemoryPoolBase_new 4 memalign_at_64 4 2 zero_heap in
  let m := snd (allocate 4 m0) in
  let live := hold (fst (allocate 4 m0)) [] in
  let ptr := fst (allocate 4 m) in
  reachable 4 memalign_at_64 4 2 zero_heap m live /\
  is_aligned (pool_mem_ (self m)) MIN_BLOCK_ALIGN = true /\
  ptr = 68 /\
  ptr <> nullptr /\
  pool_mem_ (self m) <= ptr < pool_mem_ (self m) + 2 * 4 /\
  is_aligned ptr MIN_BLOCK_ALIGN = false.
Proof.
  split; [apply reach_allocate, reach_new|].
  vm_compute. repeat split; discriminate.
Qed.

(** Outside the pools of [allocate_address] the range and the distinctness
    are lost as well.  With one-byte entries the second pointer returned
    lies past the two-byte block. *)
Lemma allocate_address_small_entry :
  let m0 := MemoryPoolBase_new 4 memalign_at_64 1 2 zero_heap in
  let m := snd (allocate 4 m0) in
  pool_mem_ (self m) = 64 /\ fst (allocate 4 m) = 577.
Proof. split; reflexivity. Qed.

(** With three entries of [2^31] bytes the third call returns the pointer
    of the first call, which the client still holds. *)
Lemma allocate_address_overflow :
  let m0 := MemoryPoolBase_new 4 memalign_at_64 2147483648 3 zero_heap in
  let m := snd (allocate 4 (snd (allocate 4 m0))) in
  fst (allocate 4 m0) = 64 /\ fst (allocate 4 m) = 64.
Proof. split; reflexivity. Qed.

Lemma free_list_shape_witness :
  let m0 := MemoryPoolBase_new 4 memalign_at_64 4 2 zero_heap in
  exists fl, slotted 4 (snd (allocate 4 m0)) (hold (fst (allocate 4 m0)) []) fl.
Proof.
  apply (free_list_shape 4 memalign_at_64 4 2 zero_heap
           (snd (allocate 4 (MemoryPoolBase_new 4 memalign_at_64 4 2 zero_heap)))
           (hold (fst (allocate 4 (MemoryPoolBase_new 4 memalign_at_64 4 2 zero_heap))) [])).
  - simpl. lia.
  - lia.
  - lia.
  - unfold UINT_MODULUS. simpl. lia.
  - vm_compute. reflexivity.
  - apply reach_allocate, reach_new.
Defined.

Lemma deallocate_assert_holds_witness :
  let m0 := MemoryPoolBase_new 4 memalign_at_64 4 2 zero_heap in
  deallocate_assert 4 (self (snd (allocate 4 m0))) 64 = true.
Proof.
  apply (deallocate_assert_holds 4 memalign_at_64 4 2 zero_heap
           (snd (allocate 4 (MemoryPoolBase_new 4 memalign_at_64 4 2 zero_heap)))
           (hold (fst (allocate 4 (MemoryPoolBase_new 4 memalign_at_64 4 2 zero_heap))) [])
           64).
  - simpl. lia.
  - lia.
  - lia.
  - unfold UINT_MODULUS. simpl. lia.
  - vm_compute. reflexivity.
  - apply reach_allocate, reach_new.
  - vm_compute. left. reflexivity.
Defined.

(** ** The mask helpers *)

Lemma lowest_set_spec (fuel : nat) :
  forall i m,
    0 <= i ->
    (exists j, i <= j < i + Z.of_nat fuel /\ Z.testbit m j = true) ->
    i <= Mask.lowest_set fuel i m < i + Z.of_nat fuel /\
    Z.testbit m (Mask.lowest_set fuel i m) = true /\
    (forall j, i <= j < Mask.lowest_set fuel i m -> Z.testbit m j = false).
Proof.
  induction fuel as [|fuel IH]; intros i m Hi (j & Hj & Hb); [lia|].
  cbn [Mask.lowest_set]. destruct (Z.testbit m i) eqn:E.
  - repeat split; try lia. exact E.
  - destruct (IH (i + 1) m) as (Hr & Ht & Hlow); [lia| |].
    + exists j. split; [|exact Hb]. destruct (Z.eq_dec j i) as [->|]; [congruence | lia].
    + repeat split; try lia; [exact Ht|].
      intros k Hk. destruct (Z.eq_dec k i) as [->|]; [exact E | apply Hlow; lia].
Qed.

Lemma lowest_set_unique (fuel : nat) :
  forall i m r,
    i <= r < i + Z.of_nat fuel ->
    Z.testbit m r = true ->
    (forall j, i <= j < r -> Z.testbit m j = false) ->
    Mask.lowest_set fuel i m = r.
Proof.
  induction fuel as [|fuel IH]; intros i m r Hr Hb Hlow; [lia|].
  cbn [Mask.lowest_set]. destruct (Z.eq_dec r i) as [->|Hne].
  - now rewrite Hb.
  - rewrite Hlow by lia. apply IH; [lia | exact Hb |]. intros j Hj. apply Hlow. lia.
Qed.

Lemma count_set_range (k : nat) :
  forall i n, 0 <= Mask.count_set k i n <= Z.of_nat k.
Proof.
  induction k as [|k IH]; intros i n; cbn [Mask.count_set]; [lia|].
  specialize (IH (i + 1) n). destruct (Z.testbit n i); cbn [Z.b2z]; lia.
Qed.

Lemma count_set_zero (k : nat) :
  forall i n,
    Mask.count_set k i n = 0 ->
    forall j, i <= j < i + Z.of_nat k -> Z.testbit n j = false.
Proof.
  induction k as [|k IH]; intros i n E j Hj; [lia|].
  cbn [Mask.count_set] in E. pose proof (count_set_range k (i + 1) n) as Hr.
  destruct (Z.testbit n i) eqn:Eb; cbn [Z.b2z] in E; [lia|].
  destruct (Z.eq_dec j i) as [->|]; [exact Eb|]. apply (IH (i + 1) n); lia.
Qed.

Lemma count_set_nonzero (k : nat) :
  forall i n,
    Mask.count_set k i n <> 0 ->
    exists j, i <= j < i + Z.of_nat k /\ Z.testbit n j = true.
Proof.
  induction k as [|k IH]; intros i n E; cbn [Mask.count_set] in E; [congruence|].
  destruct (Z.testbit n i) eqn:Eb.
  - exists i. split; [lia | exact Eb].
  - destruct (IH (i + 1) n ltac:(cbn [Z.b2z] in E; lia)) as (j & Hj & Hb).
    exists j. split; [lia | exact Hb].
Qed.

Lemma low_bits_all_set (n r : Z) :
  0 <= r ->
  (forall j, 0 <= j < r -> Z.testbit n j = true) ->
  n mod 2 ^ r = 2 ^ r - 1.
Proof.
  intros Hr Hall. rewrite Z.sub_1_r, <- Z.ones_equiv. apply Z.bits_inj'.
  intros k Hk. destruct (Z.lt_ge_cases k r) as [Hlt|Hge].
  - rewrite Z.mod_pow2_bits_low, Z.ones_spec_low by lia. apply Hall. lia.
  - rewrite Z.mod_pow2_bits_high, Z.ones_spec_high by lia. reflexivity.
Qed.

Lemma successor_of_lowest_clear (n r : Z) :
  0 <= r ->
  (forall j, 0 <= j < r -> Z.testbit n j = true) ->
  Z.testbit n r = false ->
  n + 1 = (2 * (n / 2 ^ (r + 1)) + 1) * 2 ^ r.
Proof.
  intros Hr Hall Hclear.
  pose proof (low_bits_all_set n r Hr Hall) as Hlow.
  assert (Hpos : 0 < 2 ^ r) by (apply Z.pow_pos_nonneg; lia).
  pose proof (Z.testbit_spec' n r Hr) as Hbit. rewrite Hclear in Hbit. cbn [Z.b2z] in Hbit.
  pose proof (Z.div_mod n (2 ^ r) ltac:(lia)) as Hdm.
  pose proof (Z.div_mod (n / 2 ^ r) 2 ltac:(lia)) as Hdm2.
  rewrite Z.div_div in Hdm2 by lia.
  replace (2 ^ r * 2) with (2 ^ (r + 1)) in Hdm2 by (rewrite Z.pow_add_r by lia; lia).
  nia.
Qed.

Lemma find_slot_found (n : Z) :
  0 <= n < 2 ^ 32 - 1 ->
  exists i, Mask.find_slot n = Some i /\ 0 <= i < 32 /\
            Z.testbit n i = false /\
            (forall j, 0 <= j < i -> Z.testbit n j = true).
Proof.
  intros Hn.
  assert (Hclear : exists j, 0 <= j < 0 + Z.of_nat 32 /\ Z.testbit (Z.lnot n) j = true).
  { destruct (Z.eq_dec (Mask.count_set 32 0 (Z.lnot n)) 0) as [E|E].
    - exfalso.
      assert (Hall : forall j, 0 <= j < 32 -> Z.testbit n j = true).
      { intros j Hj. pose proof (count_set_zero 32 0 (Z.lnot n) E j ltac:(lia)) as Hz.
        rewrite Z.lnot_spec in Hz by lia. now destruct (Z.testbit n j). }
      pose proof (low_bits_all_set n 32 ltac:(lia) Hall) as Hm.
      rewrite Z.mod_small in Hm by lia. lia.
    - exact (count_set_nonzero 32 0 (Z.lnot n) E). }
  destruct (lowest_set_spec 32 0 (Z.lnot n) ltac:(lia) Hclear) as (Hr & Hset & Hlow).
  set (r := Mask.lowest_set 32 0 (Z.lnot n)) in *.
  assert (Hrc : Z.testbit n r = false).
  { rewrite Z.lnot_spec in Hset by lia. now destruct (Z.testbit n r). }
  assert (Hall : forall j, 0 <= j < r -> Z.testbit n j = true).
  { intros j Hj. specialize (Hlow j Hj). rewrite Z.lnot_spec in Hlow by lia.
    now destruct (Z.testbit n j). }
  pose proof (successor_of_lowest_clear n r ltac:(lia) Hall Hrc) as Hsucc.
  set (m := Z.land (Mask.uint32 (Z.lnot n)) (Mask.uint32 (n + 1))).
  assert (Hbit : forall j, 0 <= j < 32 ->
            Z.testbit m j = negb (Z.testbit n j) && Z.testbit (n + 1) j).
  { intros j Hj. unfold m, Mask.uint32. rewrite Z.land_spec.
    rewrite !Z.mod_pow2_bits_low by lia. rewrite Z.lnot_spec by lia. reflexivity. }
  assert (Hmr : Z.testbit m r = true).
  { rewrite Hbit by lia. rewrite Hrc. cbn [negb andb]. rewrite Hsucc.
    pose proof (Z.mul_pow2_bits_add (2 * (n / 2 ^ (r + 1)) + 1) r 0 ltac:(lia)) as Hadd.
    rewrite Z.add_0_r in Hadd. rewrite Hadd. apply Z.testbit_odd_0. }
  assert (Hml : forall j, 0 <= j < r -> Z.testbit m j = false).
  { intros j Hj. rewrite Hbit by lia. rewrite Hsucc.
    rewrite Z.mul_pow2_bits_low by lia. apply andb_false_r. }
  exists r. split; [|split; [lia|split; assumption]].
  unfold Mask.find_slot. fold m. unfold Mask.ctz.
  destruct (Z.eqb_spec m 0) as [E|E].
  - rewrite E, Z.bits_0 in Hmr. discriminate.
  - f_equal. apply lowest_set_unique; [lia | exact Hmr | exact Hml].
Qed.

(** X14.  [find_slot] returns the index of the lowest clear bit of a
    32-bit mask, that is the first unused slot; on the full mask, and only
    there, the count of trailing zeros it relies on has no defined
    result. *)
Theorem find_slot_lowest_clear (n : Z) :
  0 <= n < 2 ^ 32 ->
  (n = 2 ^ 32 - 1 -> Mask.find_slot n = None) /\
  (n <> 2 ^ 32 - 1 ->
   exists i, Mask.find_slot n = Some i /\ 0 <= i < 32 /\
             Z.testbit n i = false /\
             (forall j, 0 <= j < i -> Z.testbit n j = true)).
Proof.
  intros Hn. split.
  - intros ->. reflexivity.
  - intros Hne. apply find_slot_found. lia.
Qed.

Lemma count_set_full (k : nat) :
  forall i n,
    Mask.count_set k i n = Z.of_nat k ->
    forall j, i <= j < i + Z.of_nat k -> Z.testbit n j = true.
Proof.
  induction k as [|k IH]; intros i n E j Hj; [lia|].
  cbn [Mask.count_set] in E. pose proof (count_set_range k (i + 1) n) as Hr.
  destruct (Z.testbit n i) eqn:Eb; cbn [Z.b2z] in E; [|lia].
  destruct (Z.eq_dec j i) as [->|]; [exact Eb|]. apply (IH (i + 1) n); lia.
Qed.

Lemma count_set_lor (k : nat) :
  forall i0 n i,
    0 <= i ->
    Z.testbit n i = false ->
    Mask.count_set k i0 (Z.lor n (2 ^ i)) =
    Mask.count_set k i0 n + (if (i0 <=? i) && (i <? i0 + Z.of_nat k) then 1 else 0).
Proof.
  induction k as [|k IH]; intros i0 n i Hi Hclear.
  - cbn [Mask.count_set].
    destruct (Z.leb_spec i0 i), (Z.ltb_spec i (i0 + Z.of_nat 0)); cbn [andb]; lia.
  - cbn [Mask.count_set]. rewrite (IH (i0 + 1) n i Hi Hclear).
    rewrite Z.lor_spec, Z.pow2_bits_eqb by lia.
    destruct (Z.eqb_spec i i0) as [->|Hne].
    + rewrite Hclear. cbn [orb Z.b2z].
      destruct (Z.leb_spec (i0 + 1) i0), (Z.ltb_spec i0 (i0 + 1 + Z.of_nat k)),
               (Z.leb_spec i0 i0), (Z.ltb_spec i0 (i0 + Z.of_nat (S k)));
        cbn [andb]; lia.
    + rewrite orb_false_r.
      destruct (Z.leb_spec (i0 + 1) i), (Z.ltb_spec i (i0 + 1 + Z.of_nat k)),
               (Z.leb_spec i0 i), (Z.ltb_spec i (i0 + Z.of_nat (S k)));
        cbn [andb]; lia.
Qed.

Lemma lor_bit_range (n i : Z) :
  0 <= n < 2 ^ 32 -> 0 <= i < 32 -> 0 <= Z.lor n (2 ^ i) < 2 ^ 32.
Proof.
  intros Hn Hi.
  assert (Hp : 0 < 2 ^ i < 2 ^ 32).
  { split; [apply Z.pow_pos_nonneg; lia | apply Z.pow_lt_mono_r; lia]. }
  split; [apply Z.lor_nonneg; lia|].
  destruct (Z.eq_dec n 0) as [->|Hnz]; [rewrite Z.lor_0_l; lia|].
  apply Z.log2_lt_pow2.
  - assert (Z.lor n (2 ^ i) <> 0) by (rewrite Z.lor_eq_0_iff; lia).
    pose proof (proj2 (Z.lor_nonneg n (2 ^ i)) ltac:(lia)). lia.
  - rewrite Z.log2_lor by lia. rewrite Z.log2_pow2 by lia.
    assert (Z.log2 n < 32) by (apply Z.log2_lt_pow2; lia). lia.
Qed.

(** X15.  Marking the slot that [find_slot] returns keeps the mask a
    32-bit word, sets that bit, and raises [allocation_count] by exactly
    one. *)
Theorem allocation_count_mark (n i : Z) :
  0 <= n < 2 ^ 32 ->
  Mask.find_slot n = Some i ->
  0 <= Z.lor n (2 ^ i) < 2 ^ 32 /\
  Z.testbit (Z.lor n (2 ^ i)) i = true /\
  Mask.allocation_count (Z.lor n (2 ^ i)) = Mask.allocation_count n + 1.
Proof.
  intros Hn Hfs.
  assert (Hne : n <> 2 ^ 32 - 1) by (intros ->; discriminate Hfs).
  destruct (find_slot_found n ltac:(lia)) as (r & Hr & Hi & Hclear & _).
  rewrite Hr in Hfs. injection Hfs as ->.
  split; [now apply lor_bit_range|]. split.
  - rewrite Z.lor_spec, Z.pow2_bits_eqb, Z.eqb_refl by lia. apply orb_true_r.
  - unfold Mask.allocation_count. rewrite count_set_lor by (assumption || lia).
    destruct (Z.leb_spec 0 i), (Z.ltb_spec i (0 + Z.of_nat 32)); cbn [andb]; lia.
Qed.

(** X16.  [allocation_count] of a 32-bit mask lies between 0 and 32; it
    is 0 exactly on the empty mask, and it is 32 exactly when [find_slot]
    has no slot to return. *)
Theorem allocation_count_bounds (n : Z) :
  0 <= n < 2 ^ 32 ->
  0 <= Mask.allocation_count n <= 32 /\
  (Mask.allocation_count n = 0 <-> n = 0) /\
  (Mask.allocation_count n = 32 <-> Mask.find_slot n = None).
Proof.
  intros Hn. split; [apply (count_set_range 32 0 n)|]. split; split.
  - intros E. apply Z.bits_inj'. intros k Hk. rewrite Z.bits_0.
    destruct (Z.lt_ge_cases k 32).
    + apply (count_set_zero 32 0 n E). lia.
    + rewrite <- (Z.mod_small n (2 ^ 32)) by lia. apply Z.mod_pow2_bits_high. lia.
  - intros ->. reflexivity.
  - intros E.
    assert (Hall : forall j, 0 <= j < 32 -> Z.testbit n j = true).
    { intros j Hj. apply (count_set_full 32 0 n E). lia. }
    pose proof (low_bits_all_set n 32 ltac:(lia) Hall) as Hm.
    rewrite Z.mod_small in Hm by lia. rewrite Hm. reflexivity.
  - intros E. destruct (Z.eq_dec n (2 ^ 32 - 1)) as [->|Hne]; [reflexivity|].
    destruct (find_slot_found n ltac:(lia)) as (r & Hr & _). congruence.
Qed.

(** ** Worked instances of the further properties *)

Lemma held_count_exact_witness :
  let m0 := MemoryPoolBase_new 4 memalign_at_64 4 2 zero_heap in
  let m := snd (allocate 4 m0) in
  let live := hold (fst (allocate 4 m0)) [] in
  num_free_entries_ (self m) + Z.of_nat (length live) = 2 /\
  allocation_count (get_stats 4 (self m)) = Z.of_nat (length live) /\
  (destructor_assert (self m) = true <-> live = []) /\
  (fst (allocate 4 m) = nullptr <-> Z.of_nat (length live) = 2).
Proof.
  apply (held_count_exact 4 memalign_at_64 4 2 zero_heap
           (snd (allocate 4 (MemoryPoolBase_new 4 memalign_at_64 4 2 zero_heap)))
           (hold (fst (allocate 4 (MemoryPoolBase_new 4 memalign_at_64 4 2 zero_heap))) [])).
  - simpl. lia.
  - lia.
  - lia.
  - unfold UINT_MODULUS. simpl. lia.
  - vm_compute. reflexivity.
  - apply reach_allocate, reach_new.
Defined.

Lemma fresh_pool_order_witness :
  fst (allocate_n 4 (Z.to_nat 3) (MemoryPoolBase_new 4 memalign_at_64 4 3 zero_heap)) =
  map (fun i => block_of 4 memalign_at_64 4 3 + i * 4) (indices 0 (Z.to_nat 3)).
Proof.
  apply (fresh_pool_order 4 memalign_at_64 4 3 zero_heap).
  - simpl. lia.
  - lia.
  - lia.
  - unfold UINT_MODULUS. simpl. lia.
  - vm_compute. reflexivity.
Defined.

Lemma lifo_order_witness :
  let m0 := MemoryPoolBase_new 4 memalign_at_64 4 3 zero_heap in
  let m := snd (allocate 4 (snd (allocate 4 m0))) in
  fst (allocate_n 4 (length [64; 68]) (deallocate_all 4 [64; 68] m)) = rev [64; 68].
Proof.
  apply (lifo_order 4 memalign_at_64 4 3 zero_heap
           (snd (allocate 4 (snd (allocate 4 (MemoryPoolBase_new 4 memalign_at_64 4 3 zero_heap)))))
           (hold (fst (allocate 4 (snd (allocate 4 (MemoryPoolBase_new 4 memalign_at_64 4 3 zero_heap)))))
              (hold (fst (allocate 4 (MemoryPoolBase_new 4 memalign_at_64 4 3 zero_heap))) []))).
  - simpl. lia.
  - lia.
  - lia.
  - unfold UINT_MODULUS. simpl. lia.
  - vm_compute. reflexivity.
  - apply reach_allocate, reach_allocate, reach_new.
  - apply NoDup_cons; [simpl; lia|]. apply NoDup_cons; [simpl; lia|]. apply NoDup_nil.
  - intros q Hq. vm_compute. simpl in Hq. lia.
Defined.

Lemma allocate_deallocate_undo_witness :
  let m0 := MemoryPoolBase_new 4 memalign_at_64 4 3 zero_heap in
  let m := snd (allocate 4 m0) in
  let live := hold (fst (allocate 4 m0)) [] in
  let m' := deallocate 4 (snd (allocate 4 m)) (fst (allocate 4 m)) in
  self m' = self m /\
  exists fl, slotted 4 m live fl /\ slotted 4 m' live fl.
Proof.
  apply (allocate_deallocate_undo 4 memalign_at_64 4 3 zero_heap
           (snd (allocate 4 (MemoryPoolBase_new 4 memalign_at_64 4 3 zero_heap)))
           (hold (fst (allocate 4 (MemoryPoolBase_new 4 memalign_at_64 4 3 zero_heap))) [])).
  - simpl. lia.
  - lia.
  - lia.
  - unfold UINT_MODULUS. simpl. lia.
  - vm_compute. reflexivity.
  - apply reach_allocate, reach_new.
  - vm_compute. reflexivity.
Defined.

Lemma held_contents_preserved_witness :
  let m0 := MemoryPoolBase_new 4 memalign_at_64 4 3 zero_heap in
  let m := snd (allocate 4 (snd (allocate 4 m0))) in
  mem (deallocate 4 m 64) 69 = mem m 69 /\
  mem (snd (allocate 4 m)) 69 = mem m 69 /\
  (forall x, x < 64 \/ 64 + 4 <= x -> mem (deallocate 4 m 64) x = mem m x).
Proof.
  apply (held_contents_preserved 4 memalign_at_64 4 3 zero_heap
           (snd (allocate 4 (snd (allocate 4 (MemoryPoolBase_new 4 memalign_at_64 4 3 zero_heap)))))
           (hold (fst (allocate 4 (snd (allocate 4 (MemoryPoolBase_new 4 memalign_at_64 4 3 zero_heap)))))
              (hold (fst (allocate 4 (MemoryPoolBase_new 4 memalign_at_64 4 3 zero_heap))) []))
           64 68 69).
  - simpl. lia.
  - lia.
  - lia.
  - unfold UINT_MODULUS. simpl. lia.
  - vm_compute. reflexivity.
  - apply reach_allocate, reach_allocate, reach_new.
  - vm_compute. lia.
  - vm_compute. lia.
  - lia.
  - lia.
Defined.

Lemma constructor_frame_witness :
  mem (MemoryPoolBase_new 4 memalign_at_64 4 3 zero_heap) 76 = zero_heap 76.
Proof.
  apply (constructor_frame 4 memalign_at_64 4 3 zero_heap 76).
  - simpl. lia.
  - lia.
  - lia.
  - unfold UINT_MODULUS. simpl. lia.
  - right. vm_compute. discriminate.
Defined.

Lemma index_of_element_at_witness :
  let p := self (MemoryPoolBase_new 4 memalign_at_64 4 3 zero_heap) in
  index_of 4 p (element_at 4 p 1 + 3) = 1 /\
  pool_mem_ p <= element_at 4 p 1 /\
  element_at 4 p 1 + entry_size_ p <= pool_mem_ p + max_entries_ p * entry_size_ p /\
  (1 + 1 < max_entries_ p -> element_at 4 p (1 + 1) = element_at 4 p 1 + entry_size_ p).
Proof.
  apply (index_of_element_at 4 (self (MemoryPoolBase_new 4 memalign_at_64 4 3 zero_heap)) 1 3).
  - simpl. lia.
  - simpl. lia.
  - unfold UINT_MODULUS. simpl. lia.
  - simpl. lia.
  - simpl. lia.
Defined.

Lemma entry_alignment_witness :
  let p := self (MemoryPoolBase_new 4 memalign_at_64 4 3 zero_heap) in
  is_aligned (element_at 4 p 1) (2 ^ Z.of_nat 2) = true.
Proof.
  apply (entry_alignment 4 (self (MemoryPoolBase_new 4 memalign_at_64 4 3 zero_heap)) 1 2).
  - simpl. lia.
  - simpl. lia.
  - unfold UINT_MODULUS. simpl. lia.
  - simpl. lia.
  - vm_compute. reflexivity.
  - lia.
  - exists 1. reflexivity.
Defined.

Lemma double_free_aliases_witness :
  let m0 := MemoryPoolBase_new 4 memalign_at_64 4 2 zero_heap in
  let m := snd (allocate 4 m0) in
  let m1 := deallocate 4 m 64 in
  let m2 := deallocate 4 m1 64 in
  deallocate_assert 4 (self m1) 64 = true /\
  fst (allocate 4 m2) = 64 /\
  fst (allocate 4 (snd (allocate 4 m2))) = 64.
Proof.
  apply (double_free_aliases 4 memalign_at_64 4 2 zero_heap
           (snd (allocate 4 (MemoryPoolBase_new 4 memalign_at_64 4 2 zero_heap)))
           (hold (fst (allocate 4 (MemoryPoolBase_new 4 memalign_at_64 4 2 zero_heap))) [])
           64).
  - simpl. lia.
  - lia.
  - lia.
  - unfold UINT_MODULUS. simpl. lia.
  - unfold UINT_MODULUS. simpl. lia.
  - vm_compute. reflexivity.
  - apply reach_allocate, reach_new.
  - vm_compute. lia.
Defined.

Lemma constructor_last_link_witness :
  let block := block_of 4 memalign_at_64 1 300 in
  mem (MemoryPoolBase_new 4 memalign_at_64 1 300 zero_heap) (block + (300 - 1) * 1 + 1) =
    (300 / 256 ^ 1) mod 256 /\
  (1 <= 1 -> block + 300 * 1 <= block + (300 - 1) * 1 + 1).
Proof.
  apply (constructor_last_link 4 memalign_at_64 1 300 zero_heap 1).
  - lia.
  - lia.
  - unfold UINT_MODULUS. simpl. lia.
  - simpl. lia.
Defined.

Lemma find_slot_lowest_clear_witness :
  (5 = 2 ^ 32 - 1 -> Mask.find_slot 5 = None) /\
  (5 <> 2 ^ 32 - 1 ->
   exists i, Mask.find_slot 5 = Some i /\ 0 <= i < 32 /\
             Z.testbit 5 i = false /\
             (forall j, 0 <= j < i -> Z.testbit 5 j = true)).
Proof.
  apply (find_slot_lowest_clear 5). simpl. lia.
Defined.

Lemma allocation_count_mark_witness :
  0 <= Z.lor 5 (2 ^ 1) < 2 ^ 32 /\
  Z.testbit (Z.lor 5 (2 ^ 1)) 1 = true /\
  Mask.allocation_count (Z.lor 5 (2 ^ 1)) = Mask.allocation_count 5 + 1.
Proof.
  apply (allocation_count_mark 5 1).
  - simpl. lia.
  - vm_compute. reflexivity.
Defined.

Lemma allocation_count_bounds_witness :
  0 <= Mask.allocation_count 5 <= 32 /\
  (Mask.allocation_count 5 = 0 <-> 5 = 0) /\
  (Mask.allocation_count 5 = 32 <-> Mask.find_slot 5 = None).
Proof.
  apply (allocation_count_bounds 5). simpl. lia.
Defined.

(** ** Worked instances of the claims on [deallocate] *)

Lemma lifo_reuse_witness :
  let m0 := MemoryPoolBase_new 4 memalign_at_64 4 3 zero_heap in
  let m := snd (allocate 4 m0) in
  let ptr := fst (allocate 4 m) in
  let m1 := {| self := self (snd (allocate 4 m)); mem := poke zero_heap 68 255 |} in
  ptr <> nullptr /\
  deallocate_checked 4 m1 ptr = Some (deallocate 4 m1 ptr) /\
  fst (allocate 4 (deallocate 4 m1 ptr)) = ptr.
Proof.
  apply (lifo_reuse 4 memalign_at_64 4 3 zero_heap
           (snd (allocate 4 (MemoryPoolBase_new 4 memalign_at_64 4 3 zero_heap)))
           (hold (fst (allocate 4 (MemoryPoolBase_new 4 memalign_at_64 4 3 zero_heap))) [])
           (poke zero_heap 68 255)).
  - simpl. lia.
  - lia.
  - lia.
  - unfold UINT_MODULUS. simpl. lia.
  - vm_compute. reflexivity.
  - apply reach_allocate, reach_new.
  - vm_compute. reflexivity.
Defined.

Lemma deallocate_pushes_witness :
  let m0 := MemoryPoolBase_new 4 memalign_at_64 4 2 zero_heap in
  let m := snd (allocate 4 m0) in
  let m' := deallocate 4 m 64 in
  let block := block_of 4 memalign_at_64 4 2 in
  deallocate_checked 4 m 64 = Some m' /\
  (exists i, 0 <= i < 2 /\ 64 = block + i * 4 /\
             next_free_ (self m') = block + i * 4 /\
             index_of 4 (self m') (next_free_ (self m')) = i) /\
  (num_free_entries_ (self m) = 0 -> load_uint 4 (mem m') 64 = 2) /\
  (0 < num_free_entries_ (self m) ->
   exists j, 0 <= j < 2 /\
             next_free_ (self m) = block + j * 4 /\
             load_uint 4 (mem m') 64 = j) /\
  num_free_entries_ (self m') = num_free_entries_ (self m) + 1.
Proof.
  apply (deallocate_pushes 4 memalign_at_64 4 2 zero_heap
           (snd (allocate 4 (MemoryPoolBase_new 4 memalign_at_64 4 2 zero_heap)))
           (hold (fst (allocate 4 (MemoryPoolBase_new 4 memalign_at_64 4 2 zero_heap))) [])
           64).
  - simpl. lia.
  - lia.
  - lia.
  - unfold UINT_MODULUS. simpl. lia.
  - vm_compute. reflexivity.
  - apply reach_allocate, reach_new.
  - vm_compute. lia.
Defined.

Lemma free_head_null_iff_witness :
  let m0 := MemoryPoolBase_new 4 memalign_at_64 4 2 zero_heap in
  let m := snd (allocate 4 m0) in
  let live := hold (fst (allocate 4 m0)) [] in
  (num_free_entries_ (self m) = 0 <-> next_free_ (self m) = nullptr) /\
  (num_free_entries_ (self m) = 1 ->
     next_free_ (self (snd (allocate 4 m))) = nullptr /\
     num_free_entries_ (self (snd (allocate 4 m))) = 0 /\
     forall h, fst (allocate 4 {| self := self m; mem := h |}) = fst (allocate 4 m) /\
               self (snd (allocate 4 {| self := self m; mem := h |})) = self (snd (allocate 4 m))) /\
  (num_free_entries_ (self m) = 0 ->
     forall ptr, In ptr live ->
       deallocate_checked 4 m ptr = Some (deallocate 4 m ptr) /\
       next_free_ (self (deallocate 4 m ptr)) = ptr /\
       next_free_ (self (deallocate 4 m ptr)) <> nullptr /\
       load_uint 4 (mem (deallocate 4 m ptr)) (next_free_ (self (deallocate 4 m ptr))) = 2).
Proof.
  apply (free_head_null_iff 4 memalign_at_64 4 2 zero_heap
           (snd (allocate 4 (MemoryPoolBase_new 4 memalign_at_64 4 2 zero_heap)))
           (hold (fst (allocate 4 (MemoryPoolBase_new 4 memalign_at_64 4 2 zero_heap))) [])).
  - simpl. lia.
  - lia.
  - lia.
  - unfold UINT_MODULUS. simpl. lia.
  - vm_compute. reflexivity.
  - apply reach_allocate, reach_new.
Defined.

(** The second instance of C9, at a machine with no free entry: the only
    entry of a pool of capacity one is held, and [deallocate] of it
    returns with the sentinel [1] stored at the new free head. *)
Lemma free_head_null_iff_exhausted :
  let m0 := MemoryPoolBase_new 4 memalign_at_64 4 1 zero_heap in
  let m := snd (allocate 4 m0) in
  num_free_entries_ (self m) = 0 /\
  next_free_ (self m) = nullptr /\
  deallocate_checked 4 m 64 = Some (deallocate 4 m 64) /\
  next_free_ (self (deallocate 4 m 64)) = 64 /\
  load_uint 4 (mem (deallocate 4 m 64)) 64 = 1.
Proof. repeat split. Qed.

(** Why the claims on [deallocate] keep to pools whose entries can hold a
    link: with one-byte entries the second pointer handed out is 577, far
    outside the two-byte block at 64, and [deallocate] of it stops at the
    assertion. *)
Lemma deallocate_checked_small_entry :
  let m0 := MemoryPoolBase_new 4 memalign_at_64 1 2 zero_heap in
  let m1 := snd (allocate 4 m0) in
  let m2 := snd (allocate 4 m1) in
  reachable 4 memalign_at_64 1 2 zero_heap m2
    (hold (fst (allocate 4 m1)) (hold (fst (allocate 4 m0)) [])) /\
  fst (allocate 4 m1) = 577 /\
  deallocate_assert 4 (self m2) 577 = false /\
  deallocate_checked 4 m2 577 = None.
Proof.
  split; [apply reach_allocate, reach_allocate, reach_new|]. repeat split.
Qed.
